(** * ci_annotate_errors: error detection and classification

    A shallow embedding of [misc/python/materialize/cli/ci_annotate_errors.py]:
    the scanner ([_collect_errors_in_logs]), the panic correlator
    ([_collect_service_panics_in_logs]), the issue classifier ([handle_error]
    inside [annotate_logged_errors]) and the aggregator
    ([group_identical_errors]).

    Conventions.
    - Python [bytes] and [str] are both [string] (a sequence of 8-bit
      characters); a [str] is represented by its UTF-8 encoding, so that
      [encode("utf-8")] is the identity and [decode("utf-8")] returns its
      argument when that is well-formed UTF-8, and raises otherwise.
    - A [dict] keyed by service label is a [gmap string string]; the set of
      reported issue numbers is a [gset Z]; the [dict] of
      [group_identical_errors], whose iteration order is observable, is an
      association list in insertion order.
    - An [assert] that fails is an error value ([scan_error]); Python is
      assumed to run with assertions enabled. *)

From Stdlib Require Import String Ascii List ZArith Lia Bool.
From stdpp Require Import base decidable option list gmap sets strings.

Local Open Scope string_scope.
Local Open Scope list_scope.

(** ** Regular expressions of Python's [re], on bytes patterns

    The patterns of the module only use literals, character classes, [.],
    [^], [$], alternation, groups, [?] on groups and greedy [*] / [+] on
    single-character atoms.  [run] enumerates the ways a pattern can match at
    a cursor in the priority order of a backtracking matcher (greedy
    repetition first, alternatives left to right): the match [re] reports is
    the first one. *)
Module Re.

Inductive charclass : Type :=
| CAny                          (* .   : any byte but a newline *)
| CLit (a : ascii)              (* a literal byte *)
| CSet (l : list ascii)         (* [abc] *)
| CNotSet (l : list ascii)      (* [^abc] *)
| CDigit                        (* \d  : [0-9] *)
| CSpace.                       (* \s  : [ \t\n\r\f\v] *)

Inductive re : Type :=
| Empty                         (* the empty pattern *)
| Chr (c : charclass)
| Bol                           (* ^ *)
| Eol                           (* $ *)
| Seq (r1 r2 : re)
| Alt (r1 r2 : re)              (* r1|r2 *)
| Star (c : charclass)          (* c*, greedy *)
| Grp (name : string) (r : re). (* (?P<name>r) *)

Definition newline : ascii := "010"%char.

Definition ascii_in (a : ascii) (l : list ascii) : bool :=
  existsb (Ascii.eqb a) l.

Definition is_digit (a : ascii) : bool :=
  let n := nat_of_ascii a in (48 <=? n)%nat && (n <=? 57)%nat.

Definition is_space (a : ascii) : bool :=
  let n := nat_of_ascii a in ((9 <=? n)%nat && (n <=? 13)%nat) || (n =? 32)%nat.

Definition cc_mem (c : charclass) (a : ascii) : bool :=
  match c with
  | CAny => negb (Ascii.eqb a newline)
  | CLit b => Ascii.eqb a b
  | CSet l => ascii_in a l
  | CNotSet l => negb (ascii_in a l)
  | CDigit => is_digit a
  | CSpace => is_space a
  end.

(** A position in the subject: the byte before it (if any), the bytes that
    remain, and the named groups captured so far. *)
Record cursor : Type := Cursor {
  prev : option ascii;
  rest : string;
  caps : list (string * string)
}.

(** [^]: start of the subject, and with MULTILINE also after a newline. *)
Definition at_bol (multiline : bool) (st : cursor) : bool :=
  match prev st with
  | None => true
  | Some a => multiline && Ascii.eqb a newline
  end.

(** [$]: end of the subject or before its final newline; with MULTILINE
    before any newline. *)
Definition at_eol (multiline : bool) (st : cursor) : bool :=
  match rest st with
  | EmptyString => true
  | String a s => Ascii.eqb a newline && (multiline || String.eqb s EmptyString)
  end.

(** Greedy [c*]: the longest run first, then shorter ones. *)
Fixpoint star (c : charclass) (p : option ascii) (s : string)
  : list (option ascii * string) :=
  match s with
  | String a s' =>
      if cc_mem c a then star c (Some a) s' ++ [(p, s)] else [(p, s)]
  | EmptyString => [(p, s)]
  end.

(** The bytes consumed between two cursors of one subject. *)
Definition consumed (from to : string) : string :=
  substring 0 (String.length from - String.length to) from.

Fixpoint run (multiline : bool) (r : re) (st : cursor) : list cursor :=
  match r with
  | Empty => [st]
  | Chr c =>
      match rest st with
      | String a s => if cc_mem c a then [Cursor (Some a) s (caps st)] else []
      | EmptyString => []
      end
  | Bol => if at_bol multiline st then [st] else []
  | Eol => if at_eol multiline st then [st] else []
  | Seq r1 r2 => flat_map (run multiline r2) (run multiline r1 st)
  | Alt r1 r2 => run multiline r1 st ++ run multiline r2 st
  | Star c => map (fun ps => Cursor (fst ps) (snd ps) (caps st))
                  (star c (prev st) (rest st))
  | Grp name r =>
      map (fun st' => Cursor (prev st') (rest st')
                        ((name, consumed (rest st) (rest st')) :: caps st'))
          (run multiline r st)
  end.

(** A match object: [group(0)] and the named groups. *)
Record match_obj : Type := Match {
  group0 : string;
  groups : list (string * string)
}.

Fixpoint assoc (name : string) (l : list (string * string)) : option string :=
  match l with
  | [] => None
  | (k, v) :: l' => if String.eqb k name then Some v else assoc name l'
  end.

(** [m.group(name)]; the groups of the module's patterns always take part
    in a match, so the default is never used. *)
Definition group (m : match_obj) (name : string) : string :=
  default EmptyString (assoc name (groups m)).

(** The first match of [r] that starts at the cursor. *)
Definition match_at (multiline : bool) (r : re) (p : option ascii) (s : string)
  : option match_obj :=
  match run multiline r (Cursor p s []) with
  | st :: _ => Some (Match (consumed s (rest st)) (caps st))
  | [] => None
  end.

(** [pattern.match(s)]: a match at the start of [s]. *)
Definition rmatch (multiline : bool) (r : re) (s : string) : option match_obj :=
  match_at multiline r None s.

(** [pattern.finditer(s)]: the leftmost match, then the leftmost match after
    its end, and so on; each with its start offset.  [skip] counts the bytes
    of the last match still to be stepped over.  (After an empty match the
    search resumes one byte further; [ERROR_RE], the only pattern iterated,
    has no empty match, see [ERROR_RE_match_not_empty].) *)
Fixpoint finditer_from (multiline : bool) (r : re) (skip pos : nat)
    (p : option ascii) (s : string) : list (nat * match_obj) :=
  match skip with
  | S k =>
      match s with
      | String a s' => finditer_from multiline r k (S pos) (Some a) s'
      | EmptyString => []
      end
  | O =>
      match match_at multiline r p s with
      | Some m =>
          (pos, m) ::
          match s with
          | String a s' =>
              finditer_from multiline r (Nat.pred (String.length (group0 m)))
                            (S pos) (Some a) s'
          | EmptyString => []
          end
      | None =>
          match s with
          | String a s' => finditer_from multiline r 0 (S pos) (Some a) s'
          | EmptyString => []
          end
      end
  end.

Definition finditer (multiline : bool) (r : re) (s : string)
  : list (nat * match_obj) :=
  finditer_from multiline r 0 0 None s.

(** [pattern.search(s)] as a truth value: is there a match anywhere? *)
Fixpoint search_from (multiline : bool) (r : re) (p : option ascii) (s : string)
  : bool :=
  match match_at multiline r p s with
  | Some _ => true
  | None =>
      match s with
      | String a s' => search_from multiline r (Some a) s'
      | EmptyString => false
      end
  end.

Definition search (multiline : bool) (r : re) (s : string) : bool :=
  search_from multiline r None s.

(** The least number of bytes a match of the pattern consumes. *)
Fixpoint min_len (r : re) : nat :=
  match r with
  | Chr _ => 1
  | Seq r1 r2 => min_len r1 + min_len r2
  | Alt r1 r2 => Nat.min (min_len r1) (min_len r2)
  | Grp _ r => min_len r
  | Empty | Bol | Eol | Star _ => 0
  end.

(** Pattern syntax helpers. *)
Fixpoint lit (s : string) : re :=
  match s with
  | EmptyString => Empty
  | String a EmptyString => Chr (CLit a)
  | String a s' => Seq (Chr (CLit a)) (lit s')
  end.

Definition plus (c : charclass) : re := Seq (Chr c) (Star c).  (* c+ *)
Definition opt (r : re) : re := Alt r Empty.                   (* (r)? *)
Definition dotstar : re := Star CAny.                          (* .* *)

Fixpoint seqs (l : list re) : re :=
  match l with
  | [] => Empty
  | [r] => r
  | r :: l' => Seq r (seqs l')
  end.

Fixpoint alts (l : list re) : re :=
  match l with
  | [] => Empty
  | [r] => r
  | r :: l' => Alt r (alts l')
  end.

End Re.

Import Re.

(** ** The patterns of the module *)

(** [ERROR_RE] (VERBOSE | MULTILINE): unexpected failures, reported. *)
Definition ERROR_RE : re :=
  seqs [
    Bol; dotstar;
    alts [
      lit "segfault at";
      lit "trap invalid opcode";
      lit "general protection";
      lit "has overflowed its stack";
      lit "internal error:";
      lit "* FATAL:";
      Seq (Alt Bol (lit " ")) (lit "fatal:");
      seqs [Chr (CSet ["O"; "o"]%char); lit "ut ";
            Chr (CSet ["O"; "o"]%char); lit "f ";
            Chr (CSet ["M"; "m"]%char); lit "emory"];
      lit "cannot migrate from catalog";
      lit "halting process:";
      lit "fatal runtime error:";
      lit "[SQLsmith]";
      lit "[SQLancer]";
      lit "environmentd: fatal:";
      lit "clusterd: fatal:";
      seqs [lit "error: Found argument '"; dotstar;
            lit "' which wasn't expected, or isn't valid in this context"];
      seqs [lit "environmentd "; dotstar;
            lit " unrecognized configuration parameter"];
      lit "cannot load unknown system parameter from catalog storage";
      seqs [lit "SUMMARY: "; dotstar; lit "Sanitizer"];
      seqs [lit "---------- RESULT COMPARISON ISSUE START ----------"; dotstar;
            lit "---------- RESULT COMPARISON ISSUE END ------------"];
      seqs [Alt (lit "FAIL") (lit "TIMEOUT"); plus CSpace; lit "[";
            Star CSpace; plus CDigit; lit "."; plus CDigit; lit "s]"]
    ];
    dotstar; Eol
  ].

(** The label prefix shared by the two line patterns: an optional opening
    bracket, the group [service] (a greedy run of bytes other than a blank),
    then either blanks and a pipe or a closing bracket. *)
Definition service_prefix : re :=
  seqs [
    Bol; opt (lit "[");
    Grp "service" (Star (CNotSet [" "%char]));
    Alt (Seq (Star CSpace) (lit "|")) (lit "]")
  ].

(** [PANIC_IN_SERVICE_START_RE] (no flags). *)
Definition PANIC_IN_SERVICE_START_RE : re :=
  seqs [service_prefix; lit " thread '"; dotstar; lit "' panicked at "].

(** [SERVICES_LOG_LINE_RE] (no flags). *)
Definition SERVICES_LOG_LINE_RE : re :=
  seqs [service_prefix; lit " "; Grp "msg" dotstar; Eol].

Definition dquote : re := Chr (CLit "034"%char).
Definition backslash : re := Chr (CLit "092"%char).
Definition version : re :=    (* \d+\.\d+\.\d+(-dev)? *)
  seqs [plus CDigit; lit "."; plus CDigit; lit "."; plus CDigit;
        opt (lit "-dev")].

(** [IGNORE_RE] (VERBOSE | MULTILINE): expected failures, not reported.  In
    VERBOSE mode an unescaped blank is dropped, so [.* \| .*] reads [.*\|.*].
    The second entry of the source has an unescaped [|] after
    [restart-materialized-1\ *], which therefore splits it in two
    alternatives; they are kept as the pattern reads. *)
Definition IGNORE_RE : re :=
  alts [
    lit "restart-materialized-1  | thread 'coordinator' panicked at 'can't persist timestamp";
    Seq (lit "restart-materialized-1") (Star (CLit " "%char));
    seqs [lit " thread 'coordinator' panicked at 'external operation ";
          dotstar; lit " failed unrecoverably"; dotstar];
    seqs [lit "cluster-clusterd"; Chr (CSet ["1"; "2"]%char); lit "-1 "; dotstar;
          lit " halting process: new timely configuration does not match existing timely configuration"];
    lit "forced panic";
    lit "forced optimizer panic";
    lit "timely communication error:";
    lit "aborting because propagate_crashes is enabled";
    seqs [lit "restart-materialized-1 "; dotstar; lit "relation ";
          backslash; dquote; lit "fence"; backslash; dquote;
          lit " does not exist"];
    seqs [lit "restart-materialized-1 "; dotstar; lit "relation ";
          dquote; lit "consensus"; dquote; lit " does not exist"];
    lit "internal error: unexpected panic during query optimization";
    lit "larger sizes prevent running out of memory";
    seqs [alts [lit "platform-checks"; lit "legacy-upgrade";
                lit "upgrade-matrix"; lit "feature-benchmark"];
          lit "-materialized-"; dotstar; lit "|"; dotstar;
          lit "cannot load unknown system parameter from catalog storage"];
    seqs [lit "txn-wal-fencing-mz_first-"; dotstar; lit "|"; dotstar;
          lit "unexpected fence epoch"];
    seqs [lit "txn-wal-fencing-mz_first-"; dotstar; lit "|"; dotstar;
          lit "fenced by new catalog upper"];
    seqs [lit "txn-wal-fencing-mz_first-"; dotstar; lit "|"; dotstar;
          lit "fenced by new catalog epoch"];
    seqs [lit "platform-checks-mz_txn_tables"; dotstar; lit "|"; dotstar;
          lit "unexpected fence epoch"];
    seqs [lit "platform-checks-mz_txn_tables"; dotstar; lit "|"; dotstar;
          lit "fenced by new catalog upper"];
    seqs [lit "platform-checks-mz_txn_tables"; dotstar; lit "|"; dotstar;
          lit "fenced by new catalog epoch"];
    seqs [lit "platform-checks-clusterd"; dotstar; lit "|"; dotstar;
          lit "received persist state from the future"];
    seqs [lit "cannot load unknown system parameter from catalog storage";
          opt (seqs [lit " to set "; Alt (lit "default") (lit "configured");
                     lit " parameter"])];
    lit "internal error: no AWS external ID prefix configured";
    seqs [lit "skip-version-upgrade-materialized"; dotstar; lit "|"; dotstar;
          lit "incompatible persist version "; version; lit ", current: ";
          version;
          lit ", make sure to upgrade the catalog one version at a time"]
  ].

Definition ERROR_RE_finditer (data : string) : list (nat * match_obj) :=
  finditer true ERROR_RE data.

Definition IGNORE_RE_search (s : string) : bool :=
  search true IGNORE_RE s.

(** ** Data model *)

(** [ErrorLog]: a located fatal signature.  The first field is [match] in
    the source, a keyword here. *)
Record ErrorLog : Type := mkErrorLog {
  match_ : string;
  file : string
}.

Record JunitError : Type := mkJunitError {
  testclass : string;
  testcase : string;
  message : string;
  text : string
}.

(** What [get_errors] returns: [list[ErrorLog | JunitError]]. *)
Inductive LoggedError : Type :=
| OfErrorLog (e : ErrorLog)
| OfJunitError (e : JunitError).

(** [needle in hay], on bytes or on str. *)
Fixpoint contains (needle hay : string) : bool :=
  String.prefix needle hay ||
  match hay with
  | String _ hay' => contains needle hay'
  | EmptyString => false
  end.

(** ** 4.1 Scanner: [_collect_errors_in_logs] *)
Section Scanner.

(** [ui.env_is_truthy("CI_COVERAGE_ENABLED")]. *)
Variable ci_coverage_enabled : bool.

(** The body of the loop over [ERROR_RE.finditer(data)]. *)
Fixpoint collect_errors_loop (log_file_name : string)
    (matches : list (nat * match_obj)) : list ErrorLog :=
  match matches with
  | [] => []
  | (_, m) :: matches' =>
      if IGNORE_RE_search (group0 m) then
        collect_errors_loop log_file_name matches'           (* continue *)
      else if contains "environmentd" (group0 m)
              && contains "segfault at" (group0 m)
              && ci_coverage_enabled then
        collect_errors_loop log_file_name matches'           (* continue *)
      else
        mkErrorLog (group0 m) log_file_name
          :: collect_errors_loop log_file_name matches'
  end.

Definition _collect_errors_in_logs (data log_file_name : string)
  : list ErrorLog :=
  collect_errors_loop log_file_name (ERROR_RE_finditer data).

End Scanner.

(** ** 4.2 Panic correlator: [_collect_service_panics_in_logs] *)

(** The lines [iter(data.readline, b"")] yields: every line keeps its
    newline, the last one may lack it. *)
Fixpoint readlines (data : string) : list string :=
  match data with
  | EmptyString => []
  | String a s =>
      if Ascii.eqb a newline then String a EmptyString :: readlines s
      else match readlines s with
           | [] => [String a EmptyString]
           | l :: ls => String a l :: ls
           end
  end.

(** [line.rstrip(b"\n")]. *)
Fixpoint rstrip_newline (line : string) : string :=
  match line with
  | EmptyString => EmptyString
  | String a s =>
      let t := rstrip_newline s in
      if Ascii.eqb a newline && String.eqb t EmptyString then EmptyString
      else String a t
  end.

(** The two assertions of the correlator, with the values their messages
    print. *)
Inductive scan_error : Type :=
| TwoPanicsInterleaving (service line : string)
    (* "Two panics of same service {service} interleaving: {line}" *)
| PanicNeverFinished (open_panics : gmap string string).
    (* "Panic log never finished: {open_panics}" *)

Inductive result (A : Type) : Type :=
| Ok (a : A)
| Raise (e : scan_error).
Arguments Ok {A} a.
Arguments Raise {A} e.

Record panic_state : Type := PanicState {
  open_panics : gmap string string;
  collected_panics : list ErrorLog
}.

(** Truth value of a bytes object: non-empty. *)
Definition truthy (s : string) : bool := negb (String.eqb s EmptyString).

(** One iteration of the loop over the lines. *)
Definition panic_line (log_file_name : string) (st : panic_state)
    (raw : string) : result panic_state :=
  let line := rstrip_newline raw in
  match rmatch false PANIC_IN_SERVICE_START_RE line with
  | Some m =>
      let service := group m "service" in
      if decide (is_Some (open_panics st !! service)) then
        Raise (TwoPanicsInterleaving service line)
      else
        Ok (PanicState (<[service := line]> (open_panics st))
                       (collected_panics st))
  | None =>
      if decide (open_panics st = ∅) then Ok st
      else
        match rmatch false SERVICES_LOG_LINE_RE line with
        | Some m =>
            match open_panics st !! group m "service" with
            | Some panic_start =>
                if truthy panic_start then
                  let open' := delete (group m "service") (open_panics st) in
                  if IGNORE_RE_search (group0 m) then
                    Ok (PanicState open' (collected_panics st))   (* continue *)
                  else
                    Ok (PanicState open'
                          (collected_panics st ++
                           [mkErrorLog (panic_start ++ " " ++ group m "msg")
                                       log_file_name]))
                else Ok st
            | None => Ok st
            end
        | None => Ok st
        end
  end.

Fixpoint panic_lines (log_file_name : string) (st : panic_state)
    (lines : list string) : result panic_state :=
  match lines with
  | [] => Ok st
  | raw :: lines' =>
      match panic_line log_file_name st raw with
      | Ok st' => panic_lines log_file_name st' lines'
      | Raise e => Raise e
      end
  end.

Definition _collect_service_panics_in_logs (data log_file_name : string)
  : result (list ErrorLog) :=
  match panic_lines log_file_name (PanicState ∅ []) (readlines data) with
  | Ok st =>
      if decide (open_panics st = ∅) then Ok (collected_panics st)
      else Raise (PanicNeverFinished (open_panics st))
  | Raise e => Raise e
  end.

(** ** Observed errors *)

(** Modelled from the spec: [ObservedBaseError] is declared in
    [materialize.observed_error], outside this module.  It brings the first
    two fields below: the [internal_error_type] every constructor call
    passes, and the occurrence count, "an occurrence count (default 1,
    mutated only by the Aggregator)", which "is never part of the equality
    key".  The other fields are those of the dataclass [ObservedError]. *)
Record ObservedError : Type := mkObservedError {
  internal_error_type : string;
  occurrences : Z;
  error_message : option string;
  error_details : option string;
  error_type : string;
  location : string;
  location_url : option string;
  max_error_length : Z;
  max_details_length : Z
}.

(** Modelled from the spec: [WithIssue] is declared in
    [materialize.observed_error]; a known-issue error "adds issue
    identifier, title, URL", the three keywords the constructor calls
    pass. *)
Record WithIssue : Type := mkWithIssue {
  issue_url : string;
  issue_title : string;
  issue_number : Z
}.

(** The concrete subclasses of [ObservedBaseError] of this module. *)
Inductive ObservedBaseError : Type :=
| ObservedErrorWithIssue (e : ObservedError) (i : WithIssue)
                         (issue_is_closed : bool)
| ObservedErrorWithLocation (e : ObservedError)
| FailureInCoverageRun (e : ObservedError).

Global Instance ObservedError_eq_dec : EqDecision ObservedError.
Proof. solve_decision. Defined.
Global Instance WithIssue_eq_dec : EqDecision WithIssue.
Proof. solve_decision. Defined.
Global Instance ObservedBaseError_eq_dec : EqDecision ObservedBaseError.
Proof. solve_decision. Defined.

Definition base (e : ObservedBaseError) : ObservedError :=
  match e with
  | ObservedErrorWithIssue b _ _ => b
  | ObservedErrorWithLocation b => b
  | FailureInCoverageRun b => b
  end.

(** [error.occurrences = count]. *)
Definition set_occurrences (count : Z) (e : ObservedBaseError)
  : ObservedBaseError :=
  let upd b :=
    mkObservedError (internal_error_type b) count (error_message b)
      (error_details b) (error_type b) (location b) (location_url b)
      (max_error_length b) (max_details_length b) in
  match e with
  | ObservedErrorWithIssue b i c => ObservedErrorWithIssue (upd b) i c
  | ObservedErrorWithLocation b => ObservedErrorWithLocation (upd b)
  | FailureInCoverageRun b => FailureInCoverageRun (upd b)
  end.

(** [a == b] as the dataclasses generate it: the same class and the same
    value in every field, the occurrence count apart.  [hash] agrees. *)
Definition error_eqb (a b : ObservedBaseError) : bool :=
  bool_decide (set_occurrences 1 a = set_occurrences 1 b).

(** The issue a record refers to, if it is a record with an issue. *)
Definition issue_number_of (e : ObservedBaseError) : option Z :=
  match e with
  | ObservedErrorWithIssue _ i _ => Some (issue_number i)
  | _ => None
  end.

(** ** 4.5 Aggregator: [group_identical_errors] *)

(** [errors_with_counts], a dict in insertion order.  A key that is already
    present keeps the object first inserted. *)
Fixpoint dict_get (d : list (ObservedBaseError * Z)) (k : ObservedBaseError)
    (dflt : Z) : Z :=
  match d with
  | [] => dflt
  | (k', v) :: d' => if error_eqb k' k then v else dict_get d' k dflt
  end.

Fixpoint dict_set (d : list (ObservedBaseError * Z)) (k : ObservedBaseError)
    (v : Z) : list (ObservedBaseError * Z) :=
  match d with
  | [] => [(k, v)]
  | (k', v') :: d' =>
      if error_eqb k' k then (k', v) :: d' else (k', v') :: dict_set d' k v
  end.

Definition count_errors (errors : list ObservedBaseError)
  : list (ObservedBaseError * Z) :=
  fold_left (fun d error => dict_set d error (1 + dict_get d error 0)%Z)
            errors [].

Definition group_identical_errors (errors : list ObservedBaseError)
  : list ObservedBaseError :=
  map (fun kv => set_occurrences (snd kv) (fst kv)) (count_errors errors).

(** ** 4.4 Issue classifier: [handle_error] and the loop around it *)

(** A registry entry, [KnownGitHubIssue]: the compiled pattern is
    represented by its [search] as a truth value; [info_*] are the entries of
    the [info] dict that are read. *)
Record KnownGitHubIssue : Type := mkIssue {
  regex_search : string -> bool;
  apply_to : option string;
  info_state : string;
  info_number : Z;
  info_html_url : string;
  info_title : string
}.

Record Artifact : Type := mkArtifact {
  job_id : string;
  path : string
}.

(** The three variables [handle_error] updates. *)
Record classify_state : Type := ClassifyState {
  unknown_errors : list ObservedBaseError;
  known_errors : list ObservedBaseError;
  already_reported_issue_numbers : gset Z
}.

Definition nl : string := String newline EmptyString.

(** ** Decoding: [bytes.decode("utf-8")]

    The strict decoder accepts the well-formed byte sequences of UTF-8: one
    byte below 0x80; a lead byte 0xC2-0xDF and one continuation byte; a lead
    byte 0xE0-0xEF and two (no overlong form after 0xE0, no surrogate after
    0xED); a lead byte 0xF0-0xF4 and three (no overlong form after 0xF0,
    nothing above U+10FFFF after 0xF4).  On any other input it raises
    [UnicodeDecodeError]. *)
Definition in_range (lo hi : N) (a : ascii) : bool :=
  (lo <=? N_of_ascii a)%N && (N_of_ascii a <=? hi)%N.

(** The second byte of a sequence of three, of four. *)
Definition second_of_three (lead b : ascii) : bool :=
  if in_range 224 224 lead then in_range 160 191 b
  else if in_range 237 237 lead then in_range 128 159 b
  else in_range 128 191 b.

Definition second_of_four (lead b : ascii) : bool :=
  if in_range 240 240 lead then in_range 144 191 b
  else if in_range 244 244 lead then in_range 128 143 b
  else in_range 128 191 b.

Fixpoint utf8_valid (s : string) : bool :=
  match s with
  | EmptyString => true
  | String a s1 =>
      if in_range 0 127 a then utf8_valid s1
      else
        match s1 with
        | EmptyString => false
        | String b s2 =>
            if in_range 194 223 a then in_range 128 191 b && utf8_valid s2
            else
              match s2 with
              | EmptyString => false
              | String c s3 =>
                  if in_range 224 239 a then
                    second_of_three a b && in_range 128 191 c && utf8_valid s3
                  else
                    match s3 with
                    | EmptyString => false
                    | String d s4 =>
                        in_range 240 244 a && second_of_four a b
                        && in_range 128 191 c && in_range 128 191 d
                        && utf8_valid s4
                    end
              end
        end
  end.

(** [None] is the [UnicodeDecodeError]. *)
Definition decode_utf8 (b : string) : option string :=
  if utf8_valid b then Some b else None.

Section Classifier.

(** [materialize.github.for_github_re], the text transform applied before a
    pattern is searched. *)
Variable for_github_re : string -> string.
(** [str.lower]. *)
Variable lower : string -> string.
(** BUILDKITE_STEP_KEY, BUILDKITE_LABEL, BUILDKITE_JOB_ID. *)
Variable step_key : string.
Variable buildkite_label : string.
Variable job : option string.
(** [ci_util.get_artifacts()] and [get_artifact_url]. *)
Variable artifacts : list Artifact.
Variable get_artifact_url : Artifact -> string.
(** [has_successful_buildkite_status()]. *)
Variable successful_buildkite_status : bool.

Variable known_issues : list KnownGitHubIssue.

(** [issue.apply_to and issue.apply_to not in (step_key.lower(),
    buildkite_label.lower())]. *)
Definition out_of_scope (issue : KnownGitHubIssue) : bool :=
  match apply_to issue with
  | Some a =>
      truthy a &&
      negb (String.eqb a (lower step_key) || String.eqb a (lower buildkite_label))
  | None => false
  end.

(** The two passes differ in the state they look for and in the record they
    make. *)
Definition wanted_state (closed : bool) : string :=
  if closed then "closed" else "open".

(** An entry matches a text in a pass (vocabulary of the statements): its
    pattern is found in the transformed text, it is in the state the pass
    looks for, and it is not out of scope. *)
Definition entry_matches (closed : bool) (search_string : string)
    (issue : KnownGitHubIssue) : bool :=
  regex_search issue (for_github_re search_string)
  && String.eqb (info_state issue) (wanted_state closed)
  && negb (out_of_scope issue).

Definition issue_record (closed : bool) (issue : KnownGitHubIssue)
    (error_message : string) (error_details : option string)
    (location : string) (location_url : option string) : ObservedBaseError :=
  ObservedErrorWithIssue
    (mkObservedError
       (if closed then "POTENTIAL_REGRESSION" else "KNOWN_ISSUE") 1
       (Some error_message) error_details
       (if closed then "Potential regression" else "Known issue")
       location location_url 10000 10000)
    (mkWithIssue (info_html_url issue) (info_title issue) (info_number issue))
    closed.

(** The body under [if issue.info["number"] not in
    already_reported_issue_numbers]: the first pass appends to
    [known_errors], the second to [unknown_errors]. *)
Definition report_issue (closed : bool) (issue : KnownGitHubIssue)
    (error_message : string) (error_details : option string)
    (location : string) (location_url : option string)
    (st : classify_state) : classify_state :=
  if decide (info_number issue ∈ already_reported_issue_numbers st) then st
  else
    let e := issue_record closed issue error_message error_details
                          location location_url in
    ClassifyState
      (if closed then unknown_errors st ++ [e] else unknown_errors st)
      (if closed then known_errors st else known_errors st ++ [e])
      ({[info_number issue]} ∪ already_reported_issue_numbers st).

(** [for issue in known_issues: ...]; the boolean tells whether the loop was
    left by [break] (so that its [else] is skipped). *)
Fixpoint issue_loop (closed : bool) (search_string : string)
    (error_message : string) (error_details : option string)
    (location : string) (location_url : option string)
    (issues : list KnownGitHubIssue) (st : classify_state)
  : bool * classify_state :=
  match issues with
  | [] => (false, st)
  | issue :: issues' =>
      if regex_search issue (for_github_re search_string)
         && String.eqb (info_state issue) (wanted_state closed) then
        if out_of_scope issue then
          issue_loop closed search_string error_message error_details
                     location location_url issues' st          (* continue *)
        else
          (true, report_issue closed issue error_message error_details
                              location location_url st)        (* break *)
      else
        issue_loop closed search_string error_message error_details
                   location location_url issues' st
  end.

Definition unknown_record (error_message : string)
    (error_details : option string) (location : string)
    (location_url : option string) : ObservedBaseError :=
  ObservedErrorWithLocation
    (mkObservedError "UNKNOWN ERROR" 1 (Some error_message) error_details
                     "Unknown error" location location_url 10000 10000).

Definition search_string_of (error_message : string)
    (error_details : option string) : string :=
  match error_details with
  | Some d => error_message ++ (nl ++ d)
  | None => error_message
  end.

Definition handle_error (error_message : string)
    (error_details : option string) (location : string)
    (location_url : option string) (st : classify_state) : classify_state :=
  let search_string := search_string_of error_message error_details in
  let (broke, st1) :=
    issue_loop false search_string error_message error_details
               location location_url known_issues st in
  if broke then st1
  else
    let (broke', st2) :=
      issue_loop true search_string error_message error_details
                 location location_url known_issues st1 in
    if broke' then st2
    else
      ClassifyState
        (unknown_errors st2 ++
         [unknown_record error_message error_details location location_url])
        (known_errors st2)
        (already_reported_issue_numbers st2).

(** [for artifact in artifacts: if ...: break / else: ...]. *)
Fixpoint artifact_url (file_name : string) (l : list Artifact)
  : option string :=
  match l with
  | [] => None
  | artifact :: l' =>
      if bool_decide (Some (job_id artifact) = job)
         && String.eqb (path artifact) file_name
      then Some (get_artifact_url artifact)
      else artifact_url file_name l'
  end.

(** ["\n".join(filter(None, [error.message, error.text]))]. *)
Definition coverage_message (e : JunitError) : string :=
  match truthy (message e), truthy (text e) with
  | true, true => message e ++ (nl ++ text e)
  | true, false => message e
  | false, true => text e
  | false, false => EmptyString
  end.

(** The body of [for error in errors].  [None]: the exception that
    [error.match.decode("utf-8")] raises on a match that is not well-formed
    UTF-8. *)
Definition classify_error (st : classify_state) (error : LoggedError)
  : option classify_state :=
  match error with
  | OfErrorLog e =>
      let location_url := artifact_url (file e) artifacts in
      match decode_utf8 (match_ e) with
      | Some error_message =>
          Some (handle_error error_message None (file e) location_url st)
      | None => None
      end
  | OfJunitError e =>
      if contains "in Code Coverage" (text e) || contains "covered" (message e)
      then
        Some
          (ClassifyState
             (unknown_errors st)
             (known_errors st ++
              [FailureInCoverageRun
                 (mkObservedError "FAILURE_IN_COVERAGE_MODE" 1
                    (Some (coverage_message e)) None "Failure" (testcase e)
                    None 10000 10000)])
             (already_reported_issue_numbers st))
      else
        Some (handle_error (message e) (Some (text e)) (testcase e) None st)
  end.

(** [for error in errors: ...]: an exception leaves the loop and the
    function. *)
Fixpoint classify_loop (errors : list LoggedError) (st : classify_state)
  : option classify_state :=
  match errors with
  | [] => Some st
  | error :: errors' =>
      match classify_error st error with
      | Some st' => classify_loop errors' st'
      | None => None
      end
  end.

(** The state after the loop: [unknown_errors] starts as
    [issues_with_invalid_regex], the other two empty. *)
Definition classify_errors (issues_with_invalid_regex : list ObservedBaseError)
    (errors : list LoggedError) : option classify_state :=
  classify_loop errors (ClassifyState issues_with_invalid_regex [] ∅).

(** [is_failure] of [annotate_errors]. *)
Definition is_failure (unknown known : list ObservedBaseError) : bool :=
  let unknown' := group_identical_errors unknown in
  (0 <? length unknown')%nat || negb successful_buildkite_status.

(** What [annotate_logged_errors] returns, the exit code of the process;
    [None] when the loop raises. *)
Definition annotate_logged_errors
    (issues_with_invalid_regex : list ObservedBaseError)
    (errors : list LoggedError) : option Z :=
  match errors with
  | [] => Some 0%Z
  | _ =>
      match classify_errors issues_with_invalid_regex errors with
      | Some st => Some (Z.of_nat (length (unknown_errors st)))
      | None => None
      end
  end.

End Classifier.

(** ** Vocabulary of the statements *)

(** [data] holds the bytes [m] at offset [off]. *)
Definition occurs_at (data : string) (off : nat) (m : string) : Prop :=
  exists before after : string,
    data = before +:+ m +:+ after /\ String.length before = off.

(** Located spans from left to right without overlap: each starts at or
    after [lo], holds its bytes in [data], and the next one starts after it
    and not before its end. *)
Fixpoint in_order (data : string) (lo : nat) (spans : list (nat * string))
  : Prop :=
  match spans with
  | [] => True
  | (off, m) :: spans' =>
      (lo <= off)%nat /\ occurs_at data off m /\
      in_order data (Nat.max (off + String.length m) (S off)) spans'
  end.

(** The located texts of a list of matches. *)
Definition spans (matches : list (nat * match_obj)) : list (nat * string) :=
  map (fun x => (fst x, group0 (snd x))) matches.

(** Every pending entry holds a true value. *)
Definition pending_truthy (st : panic_state) : Prop :=
  forall service line,
    open_panics st !! service = Some line -> truthy line = true.

(** A line that can resolve a pending panic of [service]: a labeled line of
    that service which is not a panic start. *)
Definition resolves (service line : string) : Prop :=
  rmatch false PANIC_IN_SERVICE_START_RE line = None /\
  exists m, rmatch false SERVICES_LOG_LINE_RE line = Some m /\
            group m "service" = service.

(** How many records of [l] equal [e] (as [==] has it). *)
Definition same_count (e : ObservedBaseError) (l : list ObservedBaseError)
  : Z :=
  Z.of_nat (length (filter (fun x => error_eqb e x = true) l)).

(** The first record of every class of equal records, in the order of
    first appearance. *)
Fixpoint first_seen (l : list ObservedBaseError) : list ObservedBaseError :=
  match l with
  | [] => []
  | e :: l' => e :: filter (fun x => error_eqb e x = false) (first_seen l')
  end.

(** The class of a record. *)
Definition class_name (e : ObservedBaseError) : string :=
  match e with
  | ObservedErrorWithIssue _ _ _ => "ObservedErrorWithIssue"
  | ObservedErrorWithLocation _ => "ObservedErrorWithLocation"
  | FailureInCoverageRun _ => "FailureInCoverageRun"
  end.

(** The equality key the specification describes: kind, message, details
    and location. *)
Definition spec_key (e : ObservedBaseError)
  : string * string * string * option string * option string * string :=
  (class_name e, internal_error_type (base e), error_type (base e),
   error_message (base e), error_details (base e), location (base e)).

(** No two records of the list are equal (as [==] has it). *)
Fixpoint distinct (l : list ObservedBaseError) : Prop :=
  match l with
  | [] => True
  | e :: l' => Forall (fun x => error_eqb e x = false) l' /\ distinct l'
  end.

(** How many records of [l] refer to issue [n]. *)
Definition count_refs (n : Z) (l : list ObservedBaseError) : nat :=
  length (filter (fun e => issue_number_of e = Some n) l).

(** The records the run has emitted so far refer to every issue at most
    once, and the set of reported numbers holds exactly the issues they
    refer to.  [invalid] is the initial content of [unknown_errors]. *)
Definition reported_once (invalid : list ObservedBaseError)
    (st : classify_state) : Prop :=
  exists emitted,
    unknown_errors st = invalid ++ emitted /\
    forall n,
      (count_refs n (known_errors st) + count_refs n emitted <= 1)%nat /\
      (n ∈ already_reported_issue_numbers st <->
       (1 <= count_refs n (known_errors st) + count_refs n emitted)%nat).

(** ASCII lower-casing, an instance of [str.lower] for the examples. *)
Definition ascii_lower_char (a : ascii) : ascii :=
  let n := nat_of_ascii a in
  if (65 <=? n)%nat && (n <=? 90)%nat then ascii_of_nat (n + 32) else a.

Fixpoint ascii_lower (s : string) : string :=
  match s with
  | EmptyString => EmptyString
  | String a s' => String (ascii_lower_char a) (ascii_lower s')
  end.

(** ** The rest of the module: reading the files *)

(** [_get_errors_from_log_file], on the content of the file.  An empty file
    cannot be mapped ([ValueError]) and gives no error; otherwise the
    matches of the scanner come first, the panics of the correlator after
    them, and an assertion of the correlator ends the whole call. *)
Definition _get_errors_from_log_file (ci_coverage_enabled : bool)
    (data log_file_name : string) : result (list ErrorLog) :=
  match data with
  | EmptyString => Ok []
  | _ =>
      let error_logs :=
        _collect_errors_in_logs ci_coverage_enabled data log_file_name in
      match _collect_service_panics_in_logs data log_file_name with
      | Ok panics => Ok (error_logs ++ panics)
      | Raise e => Raise e
      end
  end.

(** A JUnit document as [junitparser] presents it: suites of test cases,
    each with its result entries ([result] in the source, a name taken
    here). *)
Inductive ResultKind : Type := IsError | IsFailure | IsSkipped.

Record JunitResult : Type := mkJunitResult {
  result_kind : ResultKind;
  result_message : option string;
  result_text : option string
}.

Record TestCase : Type := mkTestCase {
  classname : string;
  name : string;
  result_ : list JunitResult
}.

(** [x or ""] for an optional str. *)
Definition or_empty (x : option string) : string :=
  match x with
  | Some s => s
  | None => EmptyString
  end.

(** [not isinstance(result, Error) and not isinstance(result, Failure)]. *)
Definition is_error_or_failure (r : JunitResult) : bool :=
  match result_kind r with
  | IsError | IsFailure => true
  | IsSkipped => false
  end.

Fixpoint junit_results_loop (testcase : TestCase) (results : list JunitResult)
  : list JunitError :=
  match results with
  | [] => []
  | r :: results' =>
      if negb (is_error_or_failure r) then
        junit_results_loop testcase results'                   (* continue *)
      else
        mkJunitError (classname testcase) (name testcase)
                     (or_empty (result_message r)) (or_empty (result_text r))
          :: junit_results_loop testcase results'
  end.

Fixpoint junit_cases_loop (suite : list TestCase) : list JunitError :=
  match suite with
  | [] => []
  | testcase :: suite' =>
      junit_results_loop testcase (result_ testcase) ++ junit_cases_loop suite'
  end.

(** [_get_errors_from_junit_file], on the parsed document. *)
Fixpoint _get_errors_from_junit_file (xml : list (list TestCase))
  : list JunitError :=
  match xml with
  | [] => []
  | suite :: xml' => junit_cases_loop suite ++ _get_errors_from_junit_file xml'
  end.

Section GetErrors.

Variable ci_coverage_enabled : bool.
(** The content of a log file and [JUnitXml.fromfile], by file name. *)
Variable read_log : string -> string.
Variable read_junit : string -> list (list TestCase).

(** ["junit_" in log_file_name and "junit_testdrive_" not in
    log_file_name]. *)
Definition is_junit_file (log_file_name : string) : bool :=
  contains "junit_" log_file_name
  && negb (contains "junit_testdrive_" log_file_name).

(** The loop of [get_errors], with the list built so far. *)
Fixpoint get_errors_loop (log_file_names : list string)
    (error_logs : list LoggedError) : result (list LoggedError) :=
  match log_file_names with
  | [] => Ok error_logs
  | log_file_name :: names' =>
      if is_junit_file log_file_name then
        get_errors_loop names'
          (error_logs ++
           map OfJunitError
               (_get_errors_from_junit_file (read_junit log_file_name)))
      else
        match _get_errors_from_log_file ci_coverage_enabled
                (read_log log_file_name) log_file_name with
        | Ok l => get_errors_loop names' (error_logs ++ map OfErrorLog l)
        | Raise e => Raise e
        end
  end.

Definition get_errors (log_file_names : list string)
  : result (list LoggedError) :=
  get_errors_loop log_file_names [].

End GetErrors.

(** [annotation_style] of [annotate_errors]. *)
Definition annotation_style (unknown : list ObservedBaseError) : string :=
  match unknown with
  | [] => "info"
  | _ => "error"
  end.

(** ** The rest of the module: cropping and fencing text

    [len] and slices count characters, so that the text functions are
    modelled on a [str] as the sequence of its code points. *)
Module Text.

Definition str : Type := list N.

(** A literal of one-byte characters. *)
Definition chars (s : string) : str :=
  map N_of_ascii (list_ascii_of_string s).

(** [text[:n]]: the first [n] characters, and for a negative [n] all but
    the last [-n]. *)
Definition slice_to (n : Z) (text : str) : str :=
  if (0 <=? n)%Z then take (Z.to_nat n) text
  else take (Z.to_nat (Z.of_nat (length text) + n)) text.

Definition crop_text (text : option str) (max_length : Z) : str :=
  match text with
  | None => []
  | Some t =>
      if (max_length <? Z.of_nat (length t))%Z
      then slice_to max_length t ++ chars " [...]"
      else t
  end.

Fixpoint starts_with (old s : str) : bool :=
  match old, s with
  | [] , _ => true
  | a :: old', b :: s' => N.eqb a b && starts_with old' s'
  | _ :: _, [] => false
  end.

(** [s.replace(old, new)] for a non-empty [old]: the occurrences of [old]
    from left to right, without overlap.  [skip] counts the characters of
    the last occurrence still to be stepped over. *)
Fixpoint replace_from (skip : nat) (old new s : str) : str :=
  match s with
  | [] => []
  | c :: s' =>
      match skip with
      | S k => replace_from k old new s'
      | O =>
          if starts_with old s
          then new ++ replace_from (Nat.pred (length old)) old new s'
          else c :: replace_from 0 old new s'
      end
  end.

Definition replace (old new s : str) : str := replace_from 0 old new s.

Definition backticks : str := chars "```".
Definition escaped_backticks : str := chars "\`\`\`".

Definition sanitize_text (text : str) (max_length : Z) : str :=
  replace backticks escaped_backticks (crop_text (Some text) max_length).

Definition format_error_message (error_message : option str)
    (max_length : Z) : str :=
  match error_message with
  | None | Some [] => []
  | Some t =>
      chars "```" ++ [10%N] ++ sanitize_text t max_length ++ [10%N]
      ++ chars "```"
  end.

End Text.

(** ** Vocabulary of the further statements *)

(** [e] is the record of a panic of the buffer: the text of a panic start
    line, a blank and the message of a labeled line of the same service that
    is not a panic start and that the ignore patterns do not match. *)
Definition panic_record (lines : list string) (log_file_name : string)
    (e : ErrorLog) : Prop :=
  file e = log_file_name /\
  exists raw_start raw_line m0 m,
    In raw_start lines /\ In raw_line lines /\
    rmatch false PANIC_IN_SERVICE_START_RE (rstrip_newline raw_start) = Some m0 /\
    rmatch false PANIC_IN_SERVICE_START_RE (rstrip_newline raw_line) = None /\
    rmatch false SERVICES_LOG_LINE_RE (rstrip_newline raw_line) = Some m /\
    group m "service" = group m0 "service" /\
    IGNORE_RE_search (rstrip_newline raw_line) = false /\
    match_ e = rstrip_newline raw_start +:+ " " +:+ group m "msg".

(** Every pending entry is a panic start line seen so far, under its own
    service. *)
Definition pending_from (lines : list string) (st : panic_state) : Prop :=
  forall service start,
    open_panics st !! service = Some start ->
    exists raw m0,
      In raw lines /\ start = rstrip_newline raw /\
      rmatch false PANIC_IN_SERVICE_START_RE start = Some m0 /\
      group m0 "service" = service.

(** [m] fills whole lines of [data] from offset [off]: it starts at the
    start of the buffer or after a newline, and ends at the end of the
    buffer or before a newline. *)
Definition line_span (data : string) (off : nat) (m : string) : Prop :=
  exists before after : string,
    data = before +:+ m +:+ after /\ String.length before = off /\
    (before = EmptyString \/ exists b, before = b +:+ nl) /\
    (after = EmptyString \/ exists a, after = nl +:+ a).

(** The last byte of a string. *)
Fixpoint last_char (s : string) : option ascii :=
  match s with
  | EmptyString => None
  | String a EmptyString => Some a
  | String _ s' => last_char s'
  end.

(** The segfault of [environmentd] that a coverage build does not report. *)
Definition coverage_segfault (e : ErrorLog) : bool :=
  contains "environmentd" (match_ e) && contains "segfault at" (match_ e).

(** A failure of a coverage run, which [annotate_logged_errors] reports
    without looking at the registry. *)
Definition is_coverage_failure (error : LoggedError) : bool :=
  match error with
  | OfErrorLog _ => false
  | OfJunitError e =>
      contains "in Code Coverage" (text e) || contains "covered" (message e)
  end.

(** An error whose text the loop can decode. *)
Definition decodable (error : LoggedError) : bool :=
  match error with
  | OfErrorLog e => utf8_valid (match_ e)
  | OfJunitError _ => true
  end.


(** How many records of [l] have the key of [e]. *)
Definition key_count (e : ObservedBaseError) (l : list ObservedBaseError)
  : Z :=
  Z.of_nat (length (filter (fun x => spec_key x = spec_key e) l)).

(** The first record of every key, in the order of first appearance. *)
Fixpoint first_by_key (l : list ObservedBaseError) : list ObservedBaseError :=
  match l with
  | [] => []
  | e :: l' => e :: filter (fun x => spec_key x <> spec_key e) (first_by_key l')
  end.

(** Records of [l] that have the same key are equal. *)
Definition key_faithful (l : list ObservedBaseError) : Prop :=
  forall a b, In a l -> In b l -> spec_key a = spec_key b ->
              error_eqb a b = true.

(** The kinds of record this module makes; a record of another kind is
    [foreign]. *)
Definition own_kinds : list string :=
  ["KNOWN_ISSUE"; "POTENTIAL_REGRESSION"; "UNKNOWN ERROR";
   "FAILURE_IN_COVERAGE_MODE"].

Definition foreign (e : ObservedBaseError) : Prop :=
  ~ In (internal_error_type (base e)) own_kinds.

Section Provenance.

Variable for_github_re : string -> string.
Variable lower : string -> string.
Variable step_key : string.
Variable buildkite_label : string.
Variable job : option string.
Variable artifacts : list Artifact.
Variable get_artifact_url : Artifact -> string.
Variable known_issues : list KnownGitHubIssue.

(** The location URL the loop passes for an error with these details at
    this location: a log error has no details, a junit error has some. *)
Definition url_for (d : option string) (loc : string) : option string :=
  match d with
  | None => artifact_url job get_artifact_url loc artifacts
  | Some _ => None
  end.

(** The records the loop makes: the record of a coverage failure, an
    unknown-error record, or the record of the first entry of the registry
    that matches the text in a pass. *)
Definition made_by_classifier (r : ObservedBaseError) : Prop :=
  (exists m loc,
     r = FailureInCoverageRun
           (mkObservedError "FAILURE_IN_COVERAGE_MODE" 1 (Some m) None
                            "Failure" loc None 10000 10000)) \/
  (exists msg d loc, r = unknown_record msg d loc (url_for d loc)) \/
  (exists closed issue msg d loc,
     List.find (entry_matches for_github_re lower step_key buildkite_label
                              closed (search_string_of msg d))
               known_issues = Some issue /\
     r = issue_record closed issue msg d loc (url_for d loc)).

End Provenance.

(** The sum of the occurrence counts of a list of records. *)
Definition sum_occurrences (l : list ObservedBaseError) : Z :=
  fold_right (fun e acc => (occurrences (base e) + acc)%Z) 0%Z l.

(** What one error does to the three variables: it appends at most one
    record, exactly one when its issue (if any) was not reported. *)
Definition appends (st st' : classify_state) : Prop :=
  exists ku kk,
    unknown_errors st' = unknown_errors st ++ ku /\
    known_errors st' = known_errors st ++ kk /\
    (length ku + length kk <= 1)%nat /\
    already_reported_issue_numbers st ⊆ already_reported_issue_numbers st' /\
    (already_reported_issue_numbers st = ∅ -> (length ku + length kk = 1)%nat).

(** ** Rendering the annotation

    [Annotation.to_markdown] and [BuildHistoryOnMain.to_markdown].  The
    build step outcomes and the rendering of one record ([to_markdown] and
    [occurrences_to_markdown] of the record classes) are taken as given. *)
Module Markdown.

Definition quote : Text.str := [34%N].
Definition newline : Text.str := [10%N].

(** [sep.join(parts)]. *)
Fixpoint join (sep : Text.str) (parts : list Text.str) : Text.str :=
  match parts with
  | [] => []
  | p :: parts' =>
      match parts' with
      | [] => p
      | _ :: _ => p ++ sep ++ join sep parts'
      end
  end.

Section Rendering.

Variable BuildStepOutcome : Type.
Variable web_url_to_job : BuildStepOutcome -> Text.str.
Variable passed : BuildStepOutcome -> bool.
Variable error_to_markdown : ObservedBaseError -> Text.str.
Variable occurrences_to_markdown : ObservedBaseError -> Text.str.

Record BuildHistoryOnMain : Type := mkBuildHistoryOnMain {
  pipeline_slug : Text.str;
  last_build_step_outcomes : list BuildStepOutcome
}.

Definition BuildHistoryOnMain_to_markdown (h : BuildHistoryOnMain)
  : Text.str :=
  (Text.chars "<a href=" ++ quote ++ Text.chars "/materialize/"
   ++ pipeline_slug h ++ Text.chars "/builds?branch=main" ++ quote
   ++ Text.chars ">main</a> history: ")
  ++ concat
       (map (fun outcome =>
               Text.chars "<a href=" ++ quote ++ web_url_to_job outcome
               ++ quote ++ Text.chars ">"
               ++ (if passed outcome then Text.chars ":bk-status-passed:"
                   else Text.chars ":bk-status-failed:")
               ++ Text.chars "</a>")
            (last_build_step_outcomes h)).

Record Annotation : Type := mkAnnotation {
  suite_name : Text.str;
  buildkite_job_id : Text.str;
  is_failure : bool;
  build_history_on_main : option BuildHistoryOnMain;
  unknown_errors : list ObservedBaseError;
  known_errors : list ObservedBaseError
}.

(** The lines of a list of records, one bullet each. *)
Definition error_lines (errors : list ObservedBaseError) : Text.str :=
  join newline
       (map (fun error =>
               Text.chars "* " ++ error_to_markdown error
               ++ occurrences_to_markdown error)
            errors).

Definition build_link (a : Annotation) : Text.str :=
  Text.chars "<a href=" ++ quote ++ Text.chars "#" ++ buildkite_job_id a
  ++ quote ++ Text.chars ">" ++ suite_name a ++ Text.chars "</a>".

Definition Annotation_to_markdown (a : Annotation) : Text.str :=
  let only_known_errors :=
    (length (unknown_errors a) =? 0)%nat && (0 <? length (known_errors a))%nat in
  let no_errors :=
    (length (unknown_errors a) =? 0)%nat && (length (known_errors a) =? 0)%nat in
  let wrap_in_details := only_known_errors in
  let wrap_in_summary := only_known_errors in
  let outcome :=
    if is_failure a then Text.chars "failed" else Text.chars "succeeded" in
  let title := build_link a ++ Text.chars " " ++ outcome in
  let title :=
    if only_known_errors then title ++ Text.chars " with known error logs"
    else if no_errors then title ++ Text.chars ", but no error in logs found"
    else title in
  let markdown := title in
  let markdown :=
    match build_history_on_main a with
    | Some h => markdown ++ Text.chars ", " ++ BuildHistoryOnMain_to_markdown h
    | None => markdown
    end in
  let markdown :=
    if wrap_in_summary
    then Text.chars "<summary>" ++ markdown ++ Text.chars "</summary>" ++ newline
    else markdown in
  let markdown :=
    if (0 <? length (unknown_errors a))%nat
    then markdown ++ newline ++ error_lines (unknown_errors a)
    else markdown in
  let markdown :=
    if (0 <? length (known_errors a))%nat
    then markdown ++ newline ++ error_lines (known_errors a)
    else markdown in
  let markdown :=
    if wrap_in_details
    then Text.chars "<details>" ++ markdown ++ newline ++ Text.chars "</details>"
    else markdown in
  markdown.

End Rendering.

End Markdown.

(** ** [annotate_errors]: what is handed to [add_annotation_raw]

    [None] is the failure of the assertion.  [suite_name] is the value of
    [get_suite_name()], [buildkite_job_id] that of the environment
    variable. *)
Section AnnotateErrors.

Variable successful_buildkite_status : bool.
Variable suite_name : Text.str.
Variable buildkite_job_id : Text.str.
Variable BuildStepOutcome : Type.
Variable web_url_to_job : BuildStepOutcome -> Text.str.
Variable passed : BuildStepOutcome -> bool.
Variable error_to_markdown : ObservedBaseError -> Text.str.
Variable occurrences_to_markdown : ObservedBaseError -> Text.str.

Definition annotate_errors (unknown_errors known_errors : list ObservedBaseError)
    (build_history_on_main : option (Markdown.BuildHistoryOnMain BuildStepOutcome))
  : option (string * Text.str) :=
  if (0 <? length unknown_errors)%nat || (0 <? length known_errors)%nat then
    let style := annotation_style unknown_errors in
    let failure :=
      is_failure successful_buildkite_status unknown_errors known_errors in
    let annotation :=
      Markdown.mkAnnotation BuildStepOutcome suite_name buildkite_job_id
        failure build_history_on_main
        (group_identical_errors unknown_errors)
        (group_identical_errors known_errors) in
    Some (style,
          Markdown.Annotation_to_markdown BuildStepOutcome web_url_to_job passed
            error_to_markdown occurrences_to_markdown annotation)
  else None.

End AnnotateErrors.

(** Registry entries and values for the examples. *)
Definition issue_matching_all (state : string) (number : Z) : KnownGitHubIssue :=
  mkIssue (fun _ => true) None state number "https://issues/" "an issue".

Definition restricted_issue : KnownGitHubIssue :=
  mkIssue (fun _ => true) (Some "nightly") "open" 3 "https://issues/"
          "an issue".

(** ** Strings *)

Lemma string_app_cons (a : ascii) (s t : string) :
  String a s +:+ t = String a (s +:+ t).
Proof. reflexivity. Qed.

Lemma string_app_nil_l (t : string) : EmptyString +:+ t = t.
Proof. reflexivity. Qed.

Lemma string_app_nil_r (s : string) : s +:+ EmptyString = s.
Proof.
  induction s as [|a s IH]; [reflexivity|].
  rewrite string_app_cons. congruence.
Qed.

Lemma string_app_assoc (a b c : string) : (a +:+ b) +:+ c = a +:+ (b +:+ c).
Proof.
  induction a as [|x a IH]; [reflexivity|].
  rewrite !string_app_cons. congruence.
Qed.

Lemma string_length_app (a b : string) :
  String.length (a +:+ b) = (String.length a + String.length b)%nat.
Proof.
  induction a as [|x a IH]; [reflexivity|].
  rewrite string_app_cons. simpl. lia.
Qed.

Lemma substring_all (s : string) : substring 0 (String.length s) s = s.
Proof. induction s as [|a s IH]; simpl; congruence. Qed.

Lemma substring_app (c t : string) :
  substring 0 (String.length c) (c +:+ t) = c.
Proof.
  induction c as [|x c IH].
  - destruct t; reflexivity.
  - rewrite string_app_cons. simpl. congruence.
Qed.

Lemma consumed_app (c t : string) : consumed (c +:+ t) t = c.
Proof.
  unfold consumed. rewrite string_length_app.
  replace (String.length c + String.length t - String.length t)%nat
    with (String.length c) by lia.
  apply substring_app.
Qed.

(** ** The matcher only moves forward *)
Module ReFacts.

Lemma star_suffix c p s q t :
  In (q, t) (star c p s) -> exists u, s = u +:+ t.
Proof.
  revert p. induction s as [|a s IH]; intros p; simpl.
  - intros [H|[]]. inversion H. now exists EmptyString.
  - destruct (cc_mem c a).
    + rewrite in_app_iff. intros [H|[H|[]]].
      * destruct (IH _ H) as [u ->]. now exists (String a u).
      * inversion H. now exists EmptyString.
    + intros [H|[]]. inversion H. now exists EmptyString.
Qed.

Lemma run_suffix ml r : forall st st',
  In st' (run ml r st) -> exists u, rest st = u +:+ rest st'.
Proof.
  induction r as [|c| | |r1 IH1 r2 IH2|r1 IH1 r2 IH2|c|name r IH];
    intros st st'; simpl.
  - intros [<-|[]]. now exists EmptyString.
  - destruct (rest st) as [|a s] eqn:E; [intros []|].
    destruct (cc_mem c a); [|intros []].
    intros [<-|[]]. now exists (String a EmptyString).
  - destruct (at_bol ml st); [|intros []].
    intros [<-|[]]. now exists EmptyString.
  - destruct (at_eol ml st); [|intros []].
    intros [<-|[]]. now exists EmptyString.
  - rewrite in_flat_map. intros (mid & H1 & H2).
    destruct (IH1 _ _ H1) as [u ->]. destruct (IH2 _ _ H2) as [v ->].
    exists (u +:+ v). now rewrite string_app_assoc.
  - rewrite in_app_iff. intros [H|H]; eauto.
  - rewrite in_map_iff. intros ([q t] & <- & H). simpl.
    eapply star_suffix; eauto.
  - rewrite in_map_iff. intros (mid & <- & H). simpl. eauto.
Qed.

Lemma star_length c p s q t :
  In (q, t) (star c p s) -> (String.length t <= String.length s)%nat.
Proof.
  intros H. destruct (star_suffix _ _ _ _ _ H) as [u ->].
  rewrite string_length_app. lia.
Qed.

(** A match consumes at least [min_len] bytes. *)
Lemma run_min_len ml r : forall st st',
  In st' (run ml r st) ->
  (String.length (rest st') + min_len r <= String.length (rest st))%nat.
Proof.
  induction r as [|c| | |r1 IH1 r2 IH2|r1 IH1 r2 IH2|c|name r IH];
    intros st st'; simpl.
  - intros [<-|[]]. lia.
  - destruct (rest st) as [|a s] eqn:E; [intros []|].
    destruct (cc_mem c a); [|intros []].
    intros [<-|[]]. simpl. lia.
  - destruct (at_bol ml st); [|intros []]. intros [<-|[]]. lia.
  - destruct (at_eol ml st); [|intros []]. intros [<-|[]]. lia.
  - rewrite in_flat_map. intros (mid & H1 & H2).
    apply IH1 in H1. apply IH2 in H2. lia.
  - rewrite in_app_iff. intros [H|H]; [apply IH1 in H|apply IH2 in H]; lia.
  - rewrite in_map_iff. intros ([q t] & <- & H). simpl.
    apply star_length in H. lia.
  - rewrite in_map_iff. intros (mid & <- & H). simpl. now apply IH.
Qed.

Lemma match_at_min_len ml r p s m :
  match_at ml r p s = Some m -> (min_len r <= String.length (group0 m))%nat.
Proof.
  unfold match_at. destruct (run ml r (Cursor p s [])) as [|st l] eqn:E;
    [discriminate|].
  intros [= <-]. simpl.
  assert (Hin : In st (run ml r (Cursor p s []))) by (rewrite E; now left).
  pose proof (run_min_len _ _ _ _ Hin) as Hlen.
  destruct (run_suffix _ _ _ _ Hin) as [u Hu]. simpl in Hu, Hlen.
  rewrite Hu, consumed_app. rewrite Hu, string_length_app in Hlen. lia.
Qed.

(** The text of a match is a prefix of the subject. *)
Lemma match_at_prefix ml r p s m :
  match_at ml r p s = Some m -> exists t, s = group0 m +:+ t.
Proof.
  unfold match_at. destruct (run ml r (Cursor p s [])) as [|st l] eqn:E;
    [discriminate|].
  intros [= <-]. simpl.
  destruct (run_suffix ml r (Cursor p s []) st) as [u Hu].
  { rewrite E. now left. }
  simpl in Hu. exists (rest st). rewrite Hu.
  now rewrite consumed_app.
Qed.

End ReFacts.

(** A match of [ERROR_RE] is never empty. *)
Lemma ERROR_RE_match_not_empty (p : option ascii) (s : string) (m : match_obj) :
  match_at true ERROR_RE p s = Some m -> group0 m <> EmptyString.
Proof.
  intros H. apply ReFacts.match_at_min_len in H.
  assert (Hmin : (1 <= min_len ERROR_RE)%nat) by (vm_compute; lia).
  destruct (group0 m); [simpl in H; lia|discriminate].
Qed.

(** ** Facts about the panic correlator *)

Lemma run_Seq ml r1 r2 st :
  run ml (Seq r1 r2) st = flat_map (run ml r2) (run ml r1 st).
Proof. reflexivity. Qed.

Lemma rstrip_newline_no_trailing (raw u : string) :
  rstrip_newline raw <> u +:+ nl.
Proof.
  revert u. induction raw as [|a s IH]; intros u; simpl.
  - destruct u; discriminate.
  - destruct (Ascii.eqb a newline && String.eqb (rstrip_newline s) EmptyString)
      eqn:E.
    + destruct u; discriminate.
    + destruct u as [|b u].
      * unfold nl. rewrite string_app_nil_l. intros [= Ha Ht].
        rewrite Ha, Ht in E. vm_compute in E. discriminate.
      * rewrite string_app_cons. intros [= _ Ht]. now apply IH in Ht.
Qed.

(** A labeled line is matched in full: [group(0)] is the line itself. *)
Lemma services_log_line_group0 (raw : string) (m : match_obj) :
  rmatch false SERVICES_LOG_LINE_RE (rstrip_newline raw) = Some m ->
  group0 m = rstrip_newline raw.
Proof.
  unfold rmatch, match_at.
  destruct (run false SERVICES_LOG_LINE_RE (Cursor None (rstrip_newline raw) []))
    as [|st l] eqn:E; [discriminate|].
  intros [= <-]. simpl.
  assert (Hin : In st (run false SERVICES_LOG_LINE_RE
                         (Cursor None (rstrip_newline raw) [])))
    by (rewrite E; now left).
  destruct (ReFacts.run_suffix _ _ _ _ Hin) as [u Hu]. simpl in Hu.
  unfold SERVICES_LOG_LINE_RE in Hin. cbn [seqs] in Hin.
  rewrite run_Seq in Hin. apply in_flat_map in Hin as (s1 & _ & Hin).
  rewrite run_Seq in Hin. apply in_flat_map in Hin as (s2 & _ & Hin).
  rewrite run_Seq in Hin. apply in_flat_map in Hin as (s3 & _ & Hin).
  cbn [run] in Hin. destruct (at_eol false s3) eqn:Heol; [|destruct Hin].
  destruct Hin as [<-|[]].
  unfold at_eol in Heol. destruct (rest s3) as [|a t] eqn:Hrest.
  - unfold consumed. simpl. rewrite Nat.sub_0_r. apply substring_all.
  - simpl in Heol. apply andb_true_iff in Heol as [Ha Ht].
    apply Ascii.eqb_eq in Ha. apply String.eqb_eq in Ht. subst a t.
    exfalso. exact (rstrip_newline_no_trailing raw u Hu).
Qed.

(** A panic start line is not empty, hence a true value. *)
Lemma panic_start_truthy (line : string) (m : match_obj) :
  rmatch false PANIC_IN_SERVICE_START_RE line = Some m -> truthy line = true.
Proof.
  destruct line; [|reflexivity].
  vm_compute. discriminate.
Qed.

Lemma panic_lines_app (file : string) (st : panic_state) (l1 l2 : list string) :
  panic_lines file st (l1 ++ l2) =
  match panic_lines file st l1 with
  | Ok st' => panic_lines file st' l2
  | Raise e => Raise e
  end.
Proof.
  revert st. induction l1 as [|raw l1 IH]; intros st; simpl; [reflexivity|].
  destruct (panic_line file st raw); [apply IH|reflexivity].
Qed.

Lemma panic_line_pending_truthy (file : string) (st st' : panic_state)
    (raw : string) :
  pending_truthy st -> panic_line file st raw = Ok st' -> pending_truthy st'.
Proof.
  intros Inv. unfold panic_line.
  destruct (rmatch false PANIC_IN_SERVICE_START_RE (rstrip_newline raw))
    as [m|] eqn:Hp.
  - destruct (decide _); [discriminate|]. intros [= <-] s l. simpl.
    destruct (decide (group m "service" = s)) as [->|Hne].
    + rewrite lookup_insert_eq. intros [= <-].
      eapply panic_start_truthy; eauto.
    + rewrite lookup_insert_ne by done. apply Inv.
  - destruct (decide _); [now intros [= <-]|].
    destruct (rmatch false SERVICES_LOG_LINE_RE (rstrip_newline raw))
      as [m|]; [|now intros [= <-]].
    destruct (open_panics st !! group m "service") as [ps|];
      [|now intros [= <-]].
    destruct (truthy ps); [|now intros [= <-]].
    assert (Hdel : forall c, pending_truthy
              (PanicState (delete (group m "service") (open_panics st)) c)).
    { intros c s l. simpl. intros Hl.
      apply lookup_delete_Some in Hl as [_ Hl]. eauto. }
    destruct (IGNORE_RE_search (group0 m)); intros [= <-]; apply Hdel.
Qed.

Lemma panic_lines_pending_truthy (file : string) (lines : list string) :
  forall st st',
    pending_truthy st -> panic_lines file st lines = Ok st' ->
    pending_truthy st'.
Proof.
  induction lines as [|raw lines IH]; intros st st' Inv; simpl.
  - now intros [= <-].
  - destruct (panic_line file st raw) as [st1|] eqn:E; [|discriminate].
    apply IH. eapply panic_line_pending_truthy; eauto.
Qed.

Lemma pending_truthy_init : pending_truthy (PanicState ∅ []).
Proof. intros s l. simpl. now rewrite lookup_empty. Qed.

(** A line that does not resolve [service] leaves its pending entry. *)
Lemma panic_line_keeps (file : string) (st st' : panic_state)
    (raw service start : string) :
  panic_line file st raw = Ok st' ->
  open_panics st !! service = Some start ->
  ~ resolves service (rstrip_newline raw) ->
  open_panics st' !! service = Some start.
Proof.
  intros Hstep Hpend Hnot. unfold panic_line in Hstep.
  destruct (rmatch false PANIC_IN_SERVICE_START_RE (rstrip_newline raw))
    as [m|] eqn:Hp.
  - destruct (decide _) as [|Hfree]; [discriminate|].
    injection Hstep as <-. simpl.
    rewrite lookup_insert_ne; [done|].
    intros Heq. apply Hfree. rewrite Heq, Hpend. eauto.
  - destruct (decide _); [now injection Hstep as <-|].
    destruct (rmatch false SERVICES_LOG_LINE_RE (rstrip_newline raw))
      as [m|] eqn:Hs; [|now injection Hstep as <-].
    destruct (open_panics st !! group m "service") as [ps|] eqn:Hl;
      [|now injection Hstep as <-].
    destruct (truthy ps); [|now injection Hstep as <-].
    assert (Hne : group m "service" <> service).
    { intros Heq. apply Hnot. split; [done|]. eauto. }
    destruct (IGNORE_RE_search (group0 m)); injection Hstep as <-; simpl;
      now rewrite lookup_delete_ne.
Qed.

Lemma panic_lines_keep (file : string) (lines : list string)
    (service start : string) :
  forall st st',
    panic_lines file st lines = Ok st' ->
    open_panics st !! service = Some start ->
    Forall (fun raw => ~ resolves service (rstrip_newline raw)) lines ->
    open_panics st' !! service = Some start.
Proof.
  induction lines as [|raw lines IH]; intros st st'; simpl.
  - now intros [= <-].
  - destruct (panic_line file st raw) as [st1|] eqn:E; [|discriminate].
    intros Hrun Hpend Hall. apply Forall_cons in Hall as [H1 Hall].
    eapply IH; eauto. eapply panic_line_keeps; eauto.
Qed.

(** The step that resolves a pending panic. *)
Lemma panic_line_resolves (file : string) (st : panic_state)
    (raw start : string) (m : match_obj) :
  rmatch false PANIC_IN_SERVICE_START_RE (rstrip_newline raw) = None ->
  rmatch false SERVICES_LOG_LINE_RE (rstrip_newline raw) = Some m ->
  open_panics st !! group m "service" = Some start ->
  truthy start = true ->
  panic_line file st raw =
  Ok (PanicState
        (delete (group m "service") (open_panics st))
        (if IGNORE_RE_search (rstrip_newline raw) then collected_panics st
         else collected_panics st ++
              [mkErrorLog (start +:+ " " +:+ group m "msg") file])).
Proof.
  intros Hp Hs Hl Ht. unfold panic_line. rewrite Hp, Hs, Hl, Ht.
  rewrite (services_log_line_group0 _ _ Hs).
  destruct (decide (open_panics st = ∅)) as [He|_].
  - rewrite He, lookup_empty in Hl. discriminate.
  - now destruct (IGNORE_RE_search (rstrip_newline raw)).
Qed.

(** ** The panic correlator: the claims *)

(** C5. A panic start line for a service that already has a pending entry
    aborts the scan: whatever the lines before it were (as long as they left
    the service pending) and whatever follows, the correlator raises the
    assertion error that names the service and the offending line; no list
    of records is returned. *)
Theorem second_panic_start_aborts
    (data log_file_name : string) (before after : list string) (raw : string)
    (st : panic_state) (m : match_obj) :
  readlines data = before ++ raw :: after ->
  panic_lines log_file_name (PanicState ∅ []) before = Ok st ->
  rmatch false PANIC_IN_SERVICE_START_RE (rstrip_newline raw) = Some m ->
  is_Some (open_panics st !! group m "service") ->
  _collect_service_panics_in_logs data log_file_name =
  Raise (TwoPanicsInterleaving (group m "service") (rstrip_newline raw)).
Proof.
  intros Hlines Hbefore Hm Hpending.
  unfold _collect_service_panics_in_logs.
  rewrite Hlines, panic_lines_app, Hbefore. simpl.
  unfold panic_line. rewrite Hm.
  destruct (decide (is_Some (open_panics st !! group m "service")));
    [reflexivity|contradiction].
Qed.

Lemma second_panic_start_aborts_witness :
  _collect_service_panics_in_logs
    ("svcA | thread 'x' panicked at " +:+ nl +:+
     "svcB | hello" +:+ nl +:+
     "svcA | thread 'y' panicked at z" +:+ nl +:+
     "svcA | out of memory" +:+ nl) "services.log" =
  Raise (TwoPanicsInterleaving "svcA" "svcA | thread 'y' panicked at z").
Proof.
  apply (second_panic_start_aborts _ "services.log"
           ["svcA | thread 'x' panicked at " +:+ nl; "svcB | hello" +:+ nl]
           ["svcA | out of memory" +:+ nl]
           ("svcA | thread 'y' panicked at z" +:+ nl)
           (PanicState {["svcA" := "svcA | thread 'x' panicked at "]} [])
           (Match "svcA | thread 'y' panicked at " [("service", "svcA")])).
  - vm_compute. reflexivity.
  - vm_compute. reflexivity.
  - vm_compute. reflexivity.
  - exists "svcA | thread 'x' panicked at ". vm_compute. reflexivity.
Defined.

(** C6. When the end of the stream is reached (the loop did not abort) and
    some service still has a pending entry, the correlator raises the
    assertion error that prints the pending entries, the service among
    them; no list of records is returned. *)
Theorem unfinished_panic_aborts
    (data log_file_name : string) (st : panic_state) (service start : string) :
  panic_lines log_file_name (PanicState ∅ []) (readlines data) = Ok st ->
  open_panics st !! service = Some start ->
  _collect_service_panics_in_logs data log_file_name =
    Raise (PanicNeverFinished (open_panics st)) /\
  (forall collected,
     _collect_service_panics_in_logs data log_file_name <> Ok collected).
Proof.
  intros Hrun Hpending. unfold _collect_service_panics_in_logs. rewrite Hrun.
  destruct (decide (open_panics st = ∅)) as [He|_].
  - rewrite He, lookup_empty in Hpending. discriminate.
  - split; [reflexivity|discriminate].
Qed.

Lemma unfinished_panic_aborts_witness :
  _collect_service_panics_in_logs
    ("svcB | thread 'a' panicked at " +:+ nl +:+ "svcB | boom" +:+ nl +:+
     "svcA | thread 'x' panicked at " +:+ nl +:+ "svcB | hello") "services.log"
  = Raise (PanicNeverFinished {["svcA" := "svcA | thread 'x' panicked at "]}).
Proof.
  refine (proj1 (unfinished_panic_aborts _ "services.log"
           (PanicState {["svcA" := "svcA | thread 'x' panicked at "]}
              [mkErrorLog "svcB | thread 'a' panicked at  boom" "services.log"])
           "svcA" "svcA | thread 'x' panicked at " _ _)).
  - vm_compute. reflexivity.
  - vm_compute. reflexivity.
Defined.

(** The records collected so far are kept. *)
Lemma panic_line_collected (file : string) (st st' : panic_state) (raw : string) :
  panic_line file st raw = Ok st' ->
  exists more, collected_panics st' = collected_panics st ++ more.
Proof.
  unfold panic_line.
  destruct (rmatch false PANIC_IN_SERVICE_START_RE (rstrip_newline raw)).
  - destruct (decide _); [discriminate|]. intros [= <-]. exists [].
    simpl. now rewrite app_nil_r.
  - assert (Hsame : Ok st = Ok st' ->
              exists more, collected_panics st' = collected_panics st ++ more).
    { intros [= <-]. exists []. now rewrite app_nil_r. }
    destruct (decide _); [exact Hsame|].
    destruct (rmatch false SERVICES_LOG_LINE_RE (rstrip_newline raw)) as [m|];
      [|exact Hsame].
    destruct (open_panics st !! group m "service") as [ps|]; [|exact Hsame].
    destruct (truthy ps); [|exact Hsame].
    destruct (IGNORE_RE_search (group0 m)); intros [= <-]; simpl.
    + exists []. now rewrite app_nil_r.
    + eauto.
Qed.

Lemma panic_lines_collected (file : string) (lines : list string) :
  forall st st',
    panic_lines file st lines = Ok st' ->
    exists more, collected_panics st' = collected_panics st ++ more.
Proof.
  induction lines as [|raw lines IH]; intros st st'; simpl.
  - intros [= <-]. exists []. now rewrite app_nil_r.
  - destruct (panic_line file st raw) as [st1|] eqn:E; [|discriminate].
    intros Hrun. destruct (panic_line_collected _ _ _ _ E) as [m1 H1].
    destruct (IH _ _ Hrun) as [m2 H2].
    exists (m1 ++ m2). now rewrite H2, H1, app_assoc.
Qed.

(** C3, as the code has it.  When a labeled line resolves a pending panic
    of its service, the ignore patterns are searched in the resolving line
    itself ([group(0)] of its match, which is the whole line: label and
    message), not in the combined text; the pending entry of the service is
    deleted whether or not the record is suppressed. *)
Theorem resolution_checks_resolving_line
    (log_file_name : string) (before : list string) (st : panic_state)
    (raw start : string) (m : match_obj) :
  panic_lines log_file_name (PanicState ∅ []) before = Ok st ->
  rmatch false PANIC_IN_SERVICE_START_RE (rstrip_newline raw) = None ->
  rmatch false SERVICES_LOG_LINE_RE (rstrip_newline raw) = Some m ->
  open_panics st !! group m "service" = Some start ->
  group0 m = rstrip_newline raw /\
  panic_line log_file_name st raw =
  Ok (PanicState
        (delete (group m "service") (open_panics st))
        (if IGNORE_RE_search (rstrip_newline raw) then collected_panics st
         else collected_panics st ++
              [mkErrorLog (start +:+ " " +:+ group m "msg") log_file_name])) /\
  delete (group m "service") (open_panics st) !! group m "service" = None.
Proof.
  intros Hbefore Hp Hs Hl. split; [|split].
  - now apply services_log_line_group0.
  - apply panic_line_resolves; try done.
    eapply (panic_lines_pending_truthy _ _ _ _ pending_truthy_init Hbefore).
    exact Hl.
  - apply lookup_delete_eq.
Qed.

Lemma resolution_checks_resolving_line_witness :
  panic_line "services.log"
    (PanicState {["svcA" := "svcA | thread 'x' panicked at "]} [])
    ("svcA | forced panic" +:+ nl) =
  Ok (PanicState (delete "svcA" {["svcA" := "svcA | thread 'x' panicked at "]})
                 []).
Proof.
  refine (proj1 (proj2 (resolution_checks_resolving_line "services.log"
           ["svcA | thread 'x' panicked at " +:+ nl]
           (PanicState {["svcA" := "svcA | thread 'x' panicked at "]} [])
           ("svcA | forced panic" +:+ nl) "svcA | thread 'x' panicked at "
           (Match "svcA | forced panic"
                  [("msg", "forced panic"); ("service", "svcA")])
           _ _ _ _))); vm_compute; reflexivity.
Defined.

(** C3 as stated fails: the ignore patterns match the combined text, and
    yet the record is reported, because the resolving line alone does not
    match them. *)
Lemma ignore_check_skips_combined_text :
  IGNORE_RE_search "s | thread 'forced panic' panicked at  boom" = true /\
  IGNORE_RE_search "s | boom" = false /\
  _collect_service_panics_in_logs
    ("s | thread 'forced panic' panicked at " +:+ nl +:+ "s | boom" +:+ nl)
    "services.log" =
  Ok [mkErrorLog "s | thread 'forced panic' panicked at  boom" "services.log"].
Proof. vm_compute. repeat split. Qed.

(** C4, as the code has it.  If the scan reaches a panic start line of a
    service and the lines after it without aborting, and none of these
    lines resolves the service, then the first later labeled line of the
    service that is not a panic start deletes the pending entry and appends
    exactly one record, the start line, a blank and the message of the later
    line, unless the later line matches the ignore patterns, in which case
    nothing is appended.  A scan that ends normally returns that record. *)
Theorem panic_resolved_by_next_line
    (log_file_name : string) (before between : list string)
    (raw_start raw_line : string) (st : panic_state) (m0 m : match_obj) :
  panic_lines log_file_name (PanicState ∅ [])
              (before ++ raw_start :: between) = Ok st ->
  rmatch false PANIC_IN_SERVICE_START_RE (rstrip_newline raw_start) = Some m0 ->
  Forall (fun raw => ~ resolves (group m0 "service") (rstrip_newline raw))
         between ->
  rmatch false PANIC_IN_SERVICE_START_RE (rstrip_newline raw_line) = None ->
  rmatch false SERVICES_LOG_LINE_RE (rstrip_newline raw_line) = Some m ->
  group m "service" = group m0 "service" ->
  let record :=
    mkErrorLog (rstrip_newline raw_start +:+ " " +:+ group m "msg")
               log_file_name in
  let st' :=
    PanicState
      (delete (group m0 "service") (open_panics st))
      (if IGNORE_RE_search (rstrip_newline raw_line) then collected_panics st
       else collected_panics st ++ [record]) in
  panic_lines log_file_name (PanicState ∅ [])
              (before ++ raw_start :: between ++ [raw_line]) = Ok st' /\
  open_panics st' !! group m0 "service" = None /\
  (IGNORE_RE_search (rstrip_newline raw_line) = false ->
   forall data after collected,
     readlines data = before ++ raw_start :: between ++ raw_line :: after ->
     _collect_service_panics_in_logs data log_file_name = Ok collected ->
     In record collected).
Proof.
  intros Hrun Hm0 Hbetween Hp Hs Hsvc record st'.
  assert (Hpend : open_panics st !! group m0 "service"
                  = Some (rstrip_newline raw_start)).
  { rewrite panic_lines_app in Hrun.
    destruct (panic_lines log_file_name (PanicState ∅ []) before) as [st0|];
      [|discriminate].
    simpl in Hrun. unfold panic_line in Hrun at 1. rewrite Hm0 in Hrun.
    destruct (decide _); [discriminate|].
    eapply panic_lines_keep; [exact Hrun| |exact Hbetween].
    simpl. apply lookup_insert_eq. }
  assert (Hstep : panic_line log_file_name st raw_line = Ok st').
  { rewrite <- Hsvc in Hpend.
    rewrite (panic_line_resolves _ _ _ _ _ Hp Hs Hpend
               (panic_start_truthy _ _ Hm0)).
    unfold st', record. now rewrite Hsvc. }
  assert (Hfull : panic_lines log_file_name (PanicState ∅ [])
                    (before ++ raw_start :: between ++ [raw_line]) = Ok st').
  { replace (before ++ raw_start :: between ++ [raw_line])
      with ((before ++ raw_start :: between) ++ [raw_line])
      by (now rewrite <- app_assoc).
    rewrite panic_lines_app, Hrun. simpl. now rewrite Hstep. }
  split; [exact Hfull|]. split; [apply lookup_delete_eq|].
  intros Hign data after collected Hlines.
  unfold _collect_service_panics_in_logs. rewrite Hlines.
  replace (before ++ raw_start :: between ++ raw_line :: after)
    with ((before ++ raw_start :: between ++ [raw_line]) ++ after).
  2:{ rewrite <- !app_assoc. simpl. now rewrite <- !app_assoc. }
  rewrite panic_lines_app, Hfull.
  destruct (panic_lines log_file_name st' after) as [st3|] eqn:Hafter;
    [|discriminate].
  destruct (decide _); [|discriminate]. intros [= <-].
  destruct (panic_lines_collected _ _ _ _ Hafter) as [more ->].
  unfold st'. simpl. rewrite Hign.
  apply in_or_app. left. apply in_or_app. right. now left.
Qed.

Lemma panic_resolved_by_next_line_witness :
  panic_lines "services.log" (PanicState ∅ [])
    ["svcA | thread 'x' panicked at " +:+ nl; "svcB | hello" +:+ nl;
     "svcA | out of memory" +:+ nl] =
  Ok (PanicState
        (delete "svcA" {["svcA" := "svcA | thread 'x' panicked at "]})
        [mkErrorLog "svcA | thread 'x' panicked at  out of memory"
                    "services.log"]).
Proof.
  refine (proj1 (panic_resolved_by_next_line "services.log" []
           ["svcB | hello" +:+ nl] ("svcA | thread 'x' panicked at " +:+ nl)
           ("svcA | out of memory" +:+ nl)
           (PanicState {["svcA" := "svcA | thread 'x' panicked at "]} [])
           (Match "svcA | thread 'x' panicked at " [("service", "svcA")])
           (Match "svcA | out of memory"
                  [("msg", "out of memory"); ("service", "svcA")])
           _ _ _ _ _ _)).
  - vm_compute. reflexivity.
  - vm_compute. reflexivity.
  - constructor; [|constructor].
    intros [_ (m & Hm & Hsvc)]. vm_compute in Hm.
    injection Hm as <-. vm_compute in Hsvc. discriminate.
  - vm_compute. reflexivity.
  - vm_compute. reflexivity.
  - vm_compute. reflexivity.
Defined.

(** C4 as stated fails: a panic start line of [svcA] with nothing pending,
    then a labeled line of [svcA] that is not a panic start, and no record
    is emitted, because the later line matches the ignore patterns. *)
Lemma ignored_resolving_line_emits_nothing :
  rmatch false PANIC_IN_SERVICE_START_RE "svcA | thread 'x' panicked at "
    = Some (Match "svcA | thread 'x' panicked at " [("service", "svcA")]) /\
  rmatch false PANIC_IN_SERVICE_START_RE "svcA | forced panic" = None /\
  rmatch false SERVICES_LOG_LINE_RE "svcA | forced panic"
    = Some (Match "svcA | forced panic"
                  [("msg", "forced panic"); ("service", "svcA")]) /\
  _collect_service_panics_in_logs
    ("svcA | thread 'x' panicked at " +:+ nl +:+
     "svcA | forced panic" +:+ nl) "services.log" = Ok [].
Proof. vm_compute. repeat split. Qed.

(** ** The scanner: the claims *)

Lemma in_order_weaken (data : string) (l : list (nat * string)) (lo lo' : nat) :
  (lo <= lo')%nat -> in_order data lo' l -> in_order data lo l.
Proof.
  destruct l as [|[off m] l]; simpl; [done|].
  intros Hle (H1 & H2 & H3). repeat split; [lia|done|done].
Qed.

(** The matches [finditer] yields lie in the subject from left to right
    without overlap. *)
Lemma finditer_from_in_order (ml : bool) (r : re) (s : string) :
  forall (before : string) (skip : nat) (p : option ascii),
    in_order (before +:+ s) (String.length before + skip)
      (spans (finditer_from ml r skip (String.length before) p s)).
Proof.
  induction s as [|a s IH]; intros before skip p.
  - destruct skip as [|k]; simpl; [|done].
    destruct (match_at ml r p EmptyString) as [m|] eqn:E; simpl; [|done].
    split; [lia|]. split; [|done].
    destruct (ReFacts.match_at_prefix _ _ _ _ _ E) as [t Ht].
    exists before, t. now rewrite <- Ht.
  - assert (Hdata : forall x,
              (before +:+ String a EmptyString) +:+ x = before +:+ String a x).
    { intros x. now rewrite string_app_assoc. }
    assert (Hlen : String.length (before +:+ String a EmptyString)
                   = S (String.length before)).
    { rewrite string_length_app. simpl. lia. }
    destruct skip as [|k]; simpl.
    + destruct (match_at ml r p (String a s)) as [m|] eqn:E; simpl.
      * split; [lia|]. split.
        { destruct (ReFacts.match_at_prefix _ _ _ _ _ E) as [t Ht].
          exists before, t. now rewrite <- Ht. }
        specialize (IH (before +:+ String a EmptyString)
                       (Nat.pred (String.length (group0 m))) (Some a)).
        rewrite Hdata, Hlen in IH.
        replace (Nat.max (String.length before + String.length (group0 m))
                         (S (String.length before)))
          with (S (String.length before)
                + Nat.pred (String.length (group0 m)))%nat by lia.
        exact IH.
      * specialize (IH (before +:+ String a EmptyString) 0%nat (Some a)).
        rewrite Hdata, Hlen in IH.
        eapply in_order_weaken; [|exact IH]. lia.
    + specialize (IH (before +:+ String a EmptyString) k (Some a)).
      rewrite Hdata, Hlen in IH.
      replace (String.length before + S k)%nat
        with (S (String.length before) + k)%nat by lia.
      exact IH.
Qed.

(** The loop of the scanner keeps a subsequence of the matches: those that
    pass both filters. *)
Lemma collect_errors_loop_kept (coverage : bool) (data log_file_name : string)
    (matches : list (nat * match_obj)) :
  forall lo,
    in_order data lo (spans matches) ->
    exists kept,
      collect_errors_loop coverage log_file_name matches
        = map (fun x => mkErrorLog (group0 (snd x)) log_file_name) kept /\
      (forall x, In x kept ->
         In x matches /\ IGNORE_RE_search (group0 (snd x)) = false) /\
      in_order data lo (spans kept).
Proof.
  induction matches as [|[off m] matches IH]; intros lo Hord.
  - exists []. simpl. split; [reflexivity|]. split; [intros x []|exact I].
  - simpl in Hord. destruct Hord as (Hlo & Hocc & Hord).
    destruct (IH _ Hord) as (kept & Heq & Hin & Hk).
    assert (Hskip : exists kept',
              collect_errors_loop coverage log_file_name matches
                = map (fun x => mkErrorLog (group0 (snd x)) log_file_name) kept'
              /\ (forall x, In x kept' ->
                    In x ((off, m) :: matches)
                    /\ IGNORE_RE_search (group0 (snd x)) = false)
              /\ in_order data lo (spans kept')).
    { exists kept. split; [done|]. split.
      - intros x Hx. destruct (Hin x Hx). split; [now right|done].
      - eapply in_order_weaken; [|exact Hk]. lia. }
    simpl. destruct (IGNORE_RE_search (group0 m)) eqn:Hign; [exact Hskip|].
    destruct (contains "environmentd" (group0 m)
              && contains "segfault at" (group0 m) && coverage);
      [exact Hskip|].
    exists ((off, m) :: kept). simpl. rewrite Heq. split; [done|]. split.
    + intros x [<-|Hx]; [split; [now left|done]|].
      destruct (Hin x Hx). split; [now right|done].
    + done.
Qed.

(** C7. Whatever the buffer, every match the scanner reports is a match of
    [ERROR_RE] in which [IGNORE_RE] finds nothing (a match in which it finds
    something is not reported at all), and the reported matches lie in the
    buffer from left to right, each after the end of the one before. *)
Theorem scanner_sound_and_ordered
    (ci_coverage_enabled : bool) (data log_file_name : string) :
  exists kept : list (nat * match_obj),
    _collect_errors_in_logs ci_coverage_enabled data log_file_name
      = map (fun x => mkErrorLog (group0 (snd x)) log_file_name) kept /\
    (forall x, In x kept ->
       In x (ERROR_RE_finditer data) /\
       IGNORE_RE_search (group0 (snd x)) = false) /\
    in_order data 0 (spans kept).
Proof.
  unfold _collect_errors_in_logs.
  apply collect_errors_loop_kept.
  exact (finditer_from_in_order true ERROR_RE data EmptyString 0 None).
Qed.

(** ** The issue classifier: the claims *)
Section ClassifierFacts.

Variable for_github_re : string -> string.
Variable lower : string -> string.
Variable step_key : string.
Variable buildkite_label : string.

Local Abbreviation loop :=
  (issue_loop for_github_re lower step_key buildkite_label).
Local Abbreviation matches :=
  (entry_matches for_github_re lower step_key buildkite_label).
Local Abbreviation handle :=
  (handle_error for_github_re lower step_key buildkite_label).

(** The loop passes over the entries that do not match... *)
Lemma issue_loop_skip (closed : bool) (s msg : string) (d : option string)
    (loc : string) (url : option string)
    (before rest : list KnownGitHubIssue) (st : classify_state) :
  Forall (fun i => matches closed s i = false) before ->
  loop closed s msg d loc url (before ++ rest) st
  = loop closed s msg d loc url rest st.
Proof.
  induction before as [|i before IH]; intros H; [reflexivity|].
  apply Forall_cons in H as [Hi H]. simpl.
  unfold entry_matches in Hi.
  destruct (regex_search i (for_github_re s)
            && String.eqb (info_state i) (wanted_state closed));
    [|now apply IH].
  simpl in Hi. apply negb_false_iff in Hi. rewrite Hi. now apply IH.
Qed.

(** ... and stops at the first one that does. *)
Lemma issue_loop_stop (closed : bool) (s msg : string) (d : option string)
    (loc : string) (url : option string) (issue : KnownGitHubIssue)
    (rest : list KnownGitHubIssue) (st : classify_state) :
  matches closed s issue = true ->
  loop closed s msg d loc url (issue :: rest) st
  = (true, report_issue closed issue msg d loc url st).
Proof.
  unfold entry_matches. intros H.
  apply andb_true_iff in H as [H1 H2]. apply negb_true_iff in H2.
  simpl. now rewrite H1, H2.
Qed.

Lemma issue_loop_none (closed : bool) (s msg : string) (d : option string)
    (loc : string) (url : option string)
    (issues : list KnownGitHubIssue) (st : classify_state) :
  Forall (fun i => matches closed s i = false) issues ->
  loop closed s msg d loc url issues st = (false, st).
Proof.
  intros H. rewrite <- (app_nil_r issues). now rewrite issue_loop_skip.
Qed.

(** C1, as the code has it.  When the registry holds an open entry that
    matches the text, the first such entry decides, whatever closed entries
    match the text and wherever they stand: nothing is added to the unknown
    errors (no potential regression, no unknown error).  If the number of
    that entry has not been reported in the run, the state after the error
    is the state before it with one record more in the known errors, the
    known-issue record of that entry (kind [KNOWN_ISSUE], type [Known
    issue], the message, details, location and location URL of the error,
    the URL, title and number of the entry, not closed, count 1, both limits
    10000), and with the number in the set of reported numbers.  If the
    number has been reported, the error gets no record and nothing
    changes. *)
Theorem open_issue_takes_precedence
    (before after : list KnownGitHubIssue) (issue : KnownGitHubIssue)
    (error_message : string) (error_details : option string)
    (location : string) (location_url : option string)
    (st : classify_state) :
  let s := search_string_of error_message error_details in
  Forall (fun i => matches false s i = false) before ->
  matches false s issue = true ->
  let st' := handle (before ++ issue :: after) error_message error_details
                    location location_url st in
  unknown_errors st' = unknown_errors st /\
  (info_number issue ∉ already_reported_issue_numbers st ->
   st' =
     ClassifyState
       (unknown_errors st)
       (known_errors st ++
        [ObservedErrorWithIssue
           (mkObservedError "KNOWN_ISSUE" 1 (Some error_message) error_details
                            "Known issue" location location_url 10000 10000)
           (mkWithIssue (info_html_url issue) (info_title issue)
                        (info_number issue))
           false])
       ({[info_number issue]} ∪ already_reported_issue_numbers st)) /\
  (info_number issue ∈ already_reported_issue_numbers st -> st' = st).
Proof.
  intros s Hbefore Hissue st'. unfold st', handle_error. fold s.
  rewrite issue_loop_skip by exact Hbefore.
  rewrite issue_loop_stop by exact Hissue.
  unfold report_issue.
  destruct (decide (info_number issue ∈ already_reported_issue_numbers st));
    simpl; repeat split; try done.
Qed.

(** An entry that does not match is not seen by a pass. *)
Lemma issue_loop_without (closed : bool) (s msg : string) (d : option string)
    (loc : string) (url : option string) (issue : KnownGitHubIssue)
    (before after : list KnownGitHubIssue) (st : classify_state) :
  matches closed s issue = false ->
  loop closed s msg d loc url (before ++ issue :: after) st
  = loop closed s msg d loc url (before ++ after) st.
Proof.
  intros Hno. induction before as [|i before IH]; simpl.
  - change (issue :: after) with ([issue] ++ after).
    apply (issue_loop_skip closed s msg d loc url [issue] after st).
    constructor; [exact Hno|constructor].
  - now rewrite IH.
Qed.

(** C8. An entry with a scope restriction (a non-empty [apply_to]) matches
    a text only if its pattern is found in the transformed text and the
    restriction equals the step key or the label up to case; an entry that
    fails one of the two is never matched: classification goes as if the
    entry were not in the registry.  [str.lower] is idempotent. *)
Theorem scope_restriction_limits_matching
    (lower_idem : forall x, lower (lower x) = lower x)
    (issue : KnownGitHubIssue) (restriction : string)
    (error_message : string) (error_details : option string) :
  apply_to issue = Some restriction ->
  truthy restriction = true ->
  let s := search_string_of error_message error_details in
  (forall closed,
     matches closed s issue = true ->
     regex_search issue (for_github_re s) = true /\
     (lower restriction = lower step_key \/
      lower restriction = lower buildkite_label)) /\
  (regex_search issue (for_github_re s) = false \/
   (lower restriction <> lower step_key /\
    lower restriction <> lower buildkite_label) ->
   forall before after location location_url st,
     handle (before ++ issue :: after) error_message error_details
            location location_url st
     = handle (before ++ after) error_message error_details
              location location_url st).
Proof.
  intros Hscope Htruthy s.
  assert (Hmatch : forall closed,
            matches closed s issue = true ->
            regex_search issue (for_github_re s) = true /\
            (lower restriction = lower step_key \/
             lower restriction = lower buildkite_label)).
  { intros closed H. unfold entry_matches in H.
    apply andb_true_iff in H as [H Hin]. apply andb_true_iff in H as [Hre _].
    split; [exact Hre|].
    apply negb_true_iff in Hin. unfold out_of_scope in Hin.
    rewrite Hscope, Htruthy in Hin. simpl in Hin.
    apply negb_false_iff, orb_true_iff in Hin as [Hin|Hin];
      apply String.eqb_eq in Hin; rewrite Hin, lower_idem; auto. }
  split; [exact Hmatch|].
  intros Hfail before after location location_url st.
  assert (Hno : forall closed, matches closed s issue = false).
  { intros closed. destruct (matches closed s issue) eqn:E; [|reflexivity].
    destruct (Hmatch closed E) as [Hre Hci].
    destruct Hfail as [Hf|[Hk Hl]]; [congruence|].
    destruct Hci; contradiction. }
  unfold handle_error. fold s.
  rewrite issue_loop_without by apply Hno.
  destruct (loop false s error_message error_details location location_url
                 (before ++ after) st) as [[|] st1]; [reflexivity|].
  now rewrite issue_loop_without by apply Hno.
Qed.

End ClassifierFacts.

Lemma open_issue_takes_precedence_witness :
  handle_error (fun s => s) ascii_lower "tests" "Tests"
    [issue_matching_all "closed" 1; issue_matching_all "open" 2]
    "internal error: boom" None "services.log" None
    (ClassifyState [] [] ∅)
  = ClassifyState []
      [ObservedErrorWithIssue
         (mkObservedError "KNOWN_ISSUE" 1 (Some "internal error: boom") None
                          "Known issue" "services.log" None 10000 10000)
         (mkWithIssue "https://issues/" "an issue" 2) false]
      ({[2%Z]} ∪ ∅).
Proof.
  pose proof (open_issue_takes_precedence (fun s => s) ascii_lower
                "tests" "Tests"
                [issue_matching_all "closed" 1] []
                (issue_matching_all "open" 2)
                "internal error: boom" None "services.log" None
                (ClassifyState [] [] ∅)) as H.
  simpl in H. destruct H as (_ & Hk & _).
  - constructor; [reflexivity|constructor].
  - reflexivity.
  - apply Hk. set_solver.
Defined.

(** C1 as stated fails: the second of two errors that the same open entry
    matches gets no result at all, neither that of the open entry nor any
    other: the state after it is the state before it, whose only record is
    that of the first error. *)
Lemma reported_open_issue_gives_no_record :
  let registry := [issue_matching_all "closed" 1; issue_matching_all "open" 2] in
  let handle := handle_error (fun s => s) ascii_lower "tests" "Tests" registry in
  let st1 := handle "internal error: first" None "services.log" None
                    (ClassifyState [] [] ∅) in
  let st2 := handle "internal error: second" None "services.log" None st1 in
  entry_matches (fun s => s) ascii_lower "tests" "Tests" false
    "internal error: second" (issue_matching_all "open" 2) = true /\
  st2 = st1 /\
  unknown_errors st2 = [] /\
  known_errors st2 =
    [ObservedErrorWithIssue
       (mkObservedError "KNOWN_ISSUE" 1 (Some "internal error: first") None
                        "Known issue" "services.log" None 10000 10000)
       (mkWithIssue "https://issues/" "an issue" 2) false].
Proof. vm_compute. repeat split. Qed.

Lemma ascii_lower_char_idem (a : ascii) :
  ascii_lower_char (ascii_lower_char a) = ascii_lower_char a.
Proof.
  destruct a as [[] [] [] [] [] [] [] []]; reflexivity.
Qed.

Lemma ascii_lower_idem (x : string) : ascii_lower (ascii_lower x) = ascii_lower x.
Proof.
  induction x as [|a x IH]; simpl; [reflexivity|].
  now rewrite ascii_lower_char_idem, IH.
Qed.

Lemma scope_restriction_limits_matching_witness :
  handle_error (fun s => s) ascii_lower "tests" "Tests" [restricted_issue]
    "internal error: boom" None "services.log" None (ClassifyState [] [] ∅)
  = handle_error (fun s => s) ascii_lower "tests" "Tests" []
      "internal error: boom" None "services.log" None (ClassifyState [] [] ∅).
Proof.
  refine (proj2 (scope_restriction_limits_matching (fun s => s) ascii_lower
                   "tests" "Tests" ascii_lower_idem restricted_issue "nightly"
                   "internal error: boom" None _ _)
                _ [] [] "services.log" None (ClassifyState [] [] ∅)).
  - reflexivity.
  - reflexivity.
  - right. split; vm_compute; discriminate.
Defined.

(** ** One classification run *)

Lemma count_refs_app (n : Z) (l l' : list ObservedBaseError) :
  count_refs n (l ++ l') = (count_refs n l + count_refs n l')%nat.
Proof. unfold count_refs. now rewrite filter_app, length_app. Qed.

Lemma count_refs_nil (n : Z) : count_refs n [] = 0%nat.
Proof. reflexivity. Qed.

Lemma count_refs_one (n : Z) (e : ObservedBaseError) :
  count_refs n [e] = if decide (issue_number_of e = Some n) then 1%nat else 0%nat.
Proof.
  unfold count_refs. rewrite filter_cons, filter_nil.
  now destruct (decide (issue_number_of e = Some n)).
Qed.

Lemma count_refs_none (n : Z) (e : ObservedBaseError) :
  issue_number_of e = None -> count_refs n [e] = 0%nat.
Proof.
  intros H. rewrite count_refs_one, H. now rewrite decide_False.
Qed.

Section RunFacts.

Variable for_github_re : string -> string.
Variable lower : string -> string.
Variable step_key : string.
Variable buildkite_label : string.
Variable job : option string.
Variable artifacts : list Artifact.
Variable get_artifact_url : Artifact -> string.
Variable known_issues : list KnownGitHubIssue.

Local Abbreviation loop :=
  (issue_loop for_github_re lower step_key buildkite_label).
Local Abbreviation matches :=
  (entry_matches for_github_re lower step_key buildkite_label).
Local Abbreviation handle :=
  (handle_error for_github_re lower step_key buildkite_label known_issues).
Local Abbreviation classify :=
  (classify_error for_github_re lower step_key buildkite_label job artifacts
                  get_artifact_url known_issues).

(** What a pass does to the state. *)
Lemma issue_loop_cases (closed : bool) (s msg : string) (d : option string)
    (loc : string) (url : option string) (issues : list KnownGitHubIssue)
    (st : classify_state) :
  (exists issue,
     loop closed s msg d loc url issues st
     = (true, report_issue closed issue msg d loc url st)) \/
  loop closed s msg d loc url issues st = (false, st).
Proof.
  induction issues as [|i issues IH]; simpl; [now right|].
  destruct (regex_search i (for_github_re s)
            && String.eqb (info_state i) (wanted_state closed)); [|exact IH].
  destruct (out_of_scope lower step_key buildkite_label i); [exact IH|].
  left. now exists i.
Qed.

Lemma report_issue_once (invalid : list ObservedBaseError) (closed : bool)
    (issue : KnownGitHubIssue) (msg : string) (d : option string)
    (loc : string) (url : option string) (st : classify_state) :
  reported_once invalid st ->
  reported_once invalid (report_issue closed issue msg d loc url st).
Proof.
  intros (emitted & Hu & Hcount). unfold report_issue.
  destruct (decide (info_number issue ∈ already_reported_issue_numbers st))
    as [|Hnew]; [now exists emitted|].
  assert (Hzero : (count_refs (info_number issue) (known_errors st)
                   + count_refs (info_number issue) emitted = 0)%nat).
  { destruct (Hcount (info_number issue)) as [Hle Hiff].
    destruct (decide (1 <= count_refs (info_number issue) (known_errors st)
                      + count_refs (info_number issue) emitted)%nat) as [H1|H1];
      [|lia].
    apply Hiff in H1. contradiction. }
  set (e := issue_record closed issue msg d loc url).
  assert (He : forall n, count_refs n [e]
                = if decide (info_number issue = n) then 1%nat else 0%nat).
  { intros n. rewrite count_refs_one. simpl.
    destruct (decide (info_number issue = n)) as [->|Hne].
    - now rewrite decide_True.
    - rewrite decide_False; [done|]. intros [= H]. contradiction. }
  exists (if closed then emitted ++ [e] else emitted). simpl. split.
  { destruct closed; [|exact Hu]. now rewrite Hu, app_assoc. }
  intros n. destruct (Hcount n) as [Hle Hiff].
  assert (Hsum : (count_refs n (if closed then known_errors st
                                else known_errors st ++ [e])
                  + count_refs n (if closed then emitted ++ [e] else emitted)
                  = count_refs n (known_errors st) + count_refs n emitted
                    + count_refs n [e])%nat).
  { destruct closed; rewrite count_refs_app; lia. }
  rewrite Hsum, He. rewrite elem_of_union, elem_of_singleton.
  destruct (decide (info_number issue = n)) as [<-|Hne].
  - split; [lia|]. split; [lia|]. intros _. now left.
  - split; [lia|]. split.
    + intros [H|H]; [congruence|]. apply Hiff in H. lia.
    + intros H. right. apply Hiff. lia.
Qed.

Lemma handle_error_once (invalid : list ObservedBaseError) (msg : string)
    (d : option string) (loc : string) (url : option string)
    (st : classify_state) :
  reported_once invalid st -> reported_once invalid (handle msg d loc url st).
Proof.
  intros Hinv. unfold handle_error.
  destruct (issue_loop_cases false (search_string_of msg d) msg d loc url
              known_issues st) as [[i ->]| ->].
  { now apply report_issue_once. }
  destruct (issue_loop_cases true (search_string_of msg d) msg d loc url
              known_issues st) as [[i ->]| ->].
  { now apply report_issue_once. }
  destruct Hinv as (emitted & Hu & Hcount).
  exists (emitted ++ [unknown_record msg d loc url]). simpl. split.
  { now rewrite Hu, app_assoc. }
  intros n. rewrite count_refs_app, count_refs_none by reflexivity.
  rewrite Nat.add_0_r. apply Hcount.
Qed.

(** The loop returns exactly when it can decode every log match. *)
Lemma classify_error_returns (st : classify_state) (error : LoggedError) :
  decodable error = true <-> exists st', classify st error = Some st'.
Proof.
  destruct error as [e|e]; simpl; unfold decode_utf8.
  - destruct (utf8_valid (match_ e)); split; try done.
    + intros _. now eexists.
    + now intros [st' H].
  - split; [intros _|done].
    destruct (contains "in Code Coverage" (text e)
              || contains "covered" (message e)); now eexists.
Qed.

Lemma classify_loop_returns (errors : list LoggedError) :
  forall st,
    forallb decodable errors = true <->
    exists st', classify_loop for_github_re lower step_key buildkite_label job
                  artifacts get_artifact_url known_issues errors st = Some st'.
Proof.
  induction errors as [|e errors IH]; intros st.
  - simpl. split; [intros _; now eexists|done].
  - cbn [forallb classify_loop]. rewrite andb_true_iff.
    rewrite (classify_error_returns st e). split.
    + intros [[st1 Hstep] Hrest]. rewrite Hstep. now apply IH.
    + destruct (classify st e) as [st1|]; [|now intros [st' H]].
      intros H. split; [now eexists|]. now apply (IH st1).
Qed.

Lemma classify_loop_app (errors more : list LoggedError) :
  forall st,
    classify_loop for_github_re lower step_key buildkite_label job artifacts
      get_artifact_url known_issues (errors ++ more) st
    = match classify_loop for_github_re lower step_key buildkite_label job
              artifacts get_artifact_url known_issues errors st with
      | Some st1 =>
          classify_loop for_github_re lower step_key buildkite_label job
            artifacts get_artifact_url known_issues more st1
      | None => None
      end.
Proof.
  induction errors as [|e errors IH]; intros st; [reflexivity|].
  cbn [app classify_loop]. destruct (classify st e) as [st1|]; [|reflexivity].
  apply IH.
Qed.

Lemma classify_error_once (invalid : list ObservedBaseError)
    (st st' : classify_state) (error : LoggedError) :
  reported_once invalid st -> classify st error = Some st' ->
  reported_once invalid st'.
Proof.
  intros Hinv Hstep. destruct error as [e|e]; simpl in Hstep.
  - unfold decode_utf8 in Hstep.
    destruct (utf8_valid (match_ e)); [|discriminate].
    injection Hstep as <-. now apply handle_error_once.
  - destruct (contains "in Code Coverage" (text e)
              || contains "covered" (message e));
      injection Hstep as <-; [|now apply handle_error_once].
    destruct Hinv as (emitted & Hu & Hcount).
    exists emitted. simpl. split; [exact Hu|].
    intros n. rewrite count_refs_app, count_refs_none by reflexivity.
    replace (count_refs n (known_errors st) + 0 + count_refs n emitted)%nat
      with (count_refs n (known_errors st) + count_refs n emitted)%nat by lia.
    apply Hcount.
Qed.

Lemma fold_classify_once (invalid : list ObservedBaseError)
    (errors : list LoggedError) :
  forall st st',
    reported_once invalid st ->
    classify_loop for_github_re lower step_key buildkite_label job artifacts
      get_artifact_url known_issues errors st = Some st' ->
    reported_once invalid st'.
Proof.
  induction errors as [|e errors IH]; intros st st' Hinv Hrun;
    cbn [classify_loop] in Hrun.
  - now injection Hrun as <-.
  - destruct (classify st e) as [st1|] eqn:Hstep; [|discriminate].
    apply (IH st1 st'); [|exact Hrun].
    now apply (classify_error_once invalid st st1 e).
Qed.

(** The state the loop starts from. *)
Lemma reported_once_init (invalid : list ObservedBaseError) :
  reported_once invalid (ClassifyState invalid [] ∅).
Proof.
  exists []. simpl. split; [now rewrite app_nil_r|].
  intros n. rewrite !count_refs_nil. split; [lia|].
  split; [set_solver|lia].
Qed.


End RunFacts.


(** ** The aggregator: the claims *)

Lemma error_eqb_eq (a b : ObservedBaseError) :
  error_eqb a b = true <-> set_occurrences 1 a = set_occurrences 1 b.
Proof. unfold error_eqb. apply bool_decide_eq_true. Qed.

Lemma error_eqb_refl (a : ObservedBaseError) : error_eqb a a = true.
Proof. now apply error_eqb_eq. Qed.

Lemma error_eqb_sym (a b : ObservedBaseError) : error_eqb a b = error_eqb b a.
Proof.
  unfold error_eqb. apply bool_decide_ext. split; intros H; now symmetry.
Qed.

Lemma error_eqb_trans (a b c : ObservedBaseError) :
  error_eqb a b = true -> error_eqb b c = error_eqb a c.
Proof.
  intros H. apply error_eqb_eq in H. unfold error_eqb. now rewrite H.
Qed.

Lemma error_eqb_set_occurrences (n : Z) (a b : ObservedBaseError) :
  error_eqb (set_occurrences n a) b = error_eqb a b.
Proof.
  unfold error_eqb. apply bool_decide_ext.
  now destruct a as [[] ? ?|[]|[]].
Qed.

Lemma same_count_cons (e x : ObservedBaseError) (l : list ObservedBaseError) :
  same_count e (x :: l)
  = ((if error_eqb e x then 1 else 0) + same_count e l)%Z.
Proof.
  unfold same_count. rewrite filter_cons.
  destruct (decide (error_eqb e x = true)) as [H|H].
  - rewrite H. simpl length. lia.
  - apply not_true_is_false in H. rewrite H. lia.
Qed.

Lemma same_count_snoc (e x : ObservedBaseError) (l : list ObservedBaseError) :
  same_count e (l ++ [x])
  = (same_count e l + (if error_eqb e x then 1 else 0))%Z.
Proof.
  induction l as [|y l IH]; simpl.
  - rewrite same_count_cons. unfold same_count. simpl. lia.
  - rewrite !same_count_cons, IH. lia.
Qed.

Lemma same_count_equal (a b : ObservedBaseError) (l : list ObservedBaseError) :
  error_eqb a b = true -> same_count a l = same_count b l.
Proof.
  intros H. induction l as [|x l IH]; [reflexivity|].
  now rewrite !same_count_cons, IH, (error_eqb_trans _ _ _ H).
Qed.

Lemma same_count_absent (e : ObservedBaseError) (l : list ObservedBaseError) :
  Forall (fun x => error_eqb e x = false) l -> same_count e l = 0%Z.
Proof.
  induction 1 as [|x l Hx _ IH]; [reflexivity|].
  now rewrite same_count_cons, Hx, IH.
Qed.

Lemma first_seen_snoc (l : list ObservedBaseError) (e : ObservedBaseError) :
  first_seen (l ++ [e])
  = if existsb (fun x => error_eqb x e) l then first_seen l
    else first_seen l ++ [e].
Proof.
  induction l as [|a l IH]; [reflexivity|].
  simpl. rewrite IH.
  destruct (error_eqb a e) eqn:Ha; simpl.
  - destruct (existsb (fun x => error_eqb x e) l); [reflexivity|].
    rewrite filter_app, filter_cons, decide_False by (rewrite Ha; done).
    now rewrite filter_nil, app_nil_r.
  - destruct (existsb (fun x => error_eqb x e) l); [reflexivity|].
    rewrite filter_app, filter_cons, decide_True by done.
    now rewrite filter_nil.
Qed.

Lemma first_seen_exists (l : list ObservedBaseError) (e : ObservedBaseError) :
  existsb (fun x => error_eqb x e) (first_seen l)
  = existsb (fun x => error_eqb x e) l.
Proof.
  induction l as [|a l IH]; [reflexivity|].
  simpl. rewrite <- IH. destruct (error_eqb a e) eqn:Ha; [reflexivity|].
  simpl. generalize (first_seen l). intros ks.
  induction ks as [|k ks IHk]; [reflexivity|].
  rewrite filter_cons. destruct (decide (error_eqb a k = false)) as [Hk|Hk].
  - simpl. now rewrite IHk.
  - simpl. rewrite IHk. apply not_false_iff_true in Hk.
    rewrite (error_eqb_trans _ _ _ Hk), Ha. reflexivity.
Qed.

Lemma distinct_filter (P : ObservedBaseError -> Prop)
    `{forall x, Decision (P x)} (l : list ObservedBaseError) :
  distinct l -> distinct (filter P l).
Proof.
  induction l as [|a l IH]; [done|]. intros [Ha Hl].
  rewrite filter_cons. destruct (decide (P a)); [|now apply IH].
  split; [|now apply IH].
  apply Forall_forall. intros x Hx.
  apply list_elem_of_filter in Hx as [_ Hx].
  rewrite Forall_forall in Ha. now apply Ha.
Qed.

Lemma first_seen_distinct (l : list ObservedBaseError) : distinct (first_seen l).
Proof.
  induction l as [|a l IH]; [done|]. simpl. split.
  - apply Forall_forall. intros x Hx.
    now apply list_elem_of_filter in Hx as [Hx _].
  - now apply distinct_filter.
Qed.

Lemma existsb_false_Forall (e : ObservedBaseError) (l : list ObservedBaseError) :
  existsb (fun x => error_eqb x e) l = false ->
  Forall (fun x => error_eqb x e = false) l.
Proof.
  induction l as [|a l IH]; simpl; [constructor|].
  intros H. apply orb_false_iff in H as [Ha Hl]. constructor; auto.
Qed.

(** Reading and writing a dict whose values are given by a function of the
    key. *)
Lemma dict_get_absent (c : ObservedBaseError -> Z) (e : ObservedBaseError)
    (ks : list ObservedBaseError) :
  existsb (fun x => error_eqb x e) ks = false ->
  dict_get (map (fun k => (k, c k)) ks) e 0 = 0%Z.
Proof.
  induction ks as [|k ks IH]; simpl; [reflexivity|].
  intros H. apply orb_false_iff in H as [Hk Hks]. now rewrite Hk, IH.
Qed.

Lemma dict_set_absent (c : ObservedBaseError -> Z) (e : ObservedBaseError)
    (v : Z) (ks : list ObservedBaseError) :
  existsb (fun x => error_eqb x e) ks = false ->
  dict_set (map (fun k => (k, c k)) ks) e v
  = map (fun k => (k, c k)) ks ++ [(e, v)].
Proof.
  induction ks as [|k ks IH]; simpl; [reflexivity|].
  intros H. apply orb_false_iff in H as [Hk Hks]. now rewrite Hk, IH.
Qed.

Lemma dict_get_present (c : ObservedBaseError -> Z) (e : ObservedBaseError)
    (ce : Z) (ks : list ObservedBaseError) :
  existsb (fun x => error_eqb x e) ks = true ->
  (forall k, error_eqb k e = true -> c k = ce) ->
  dict_get (map (fun k => (k, c k)) ks) e 0 = ce.
Proof.
  intros Hex Hc. induction ks as [|k ks IH]; simpl in *; [discriminate|].
  destruct (error_eqb k e) eqn:Hk; [now apply Hc|]. now apply IH.
Qed.

Lemma dict_set_present (c : ObservedBaseError -> Z) (e : ObservedBaseError)
    (v : Z) (ks : list ObservedBaseError) :
  distinct ks ->
  existsb (fun x => error_eqb x e) ks = true ->
  dict_set (map (fun k => (k, c k)) ks) e v
  = map (fun k => (k, if error_eqb k e then v else c k)) ks.
Proof.
  induction ks as [|k ks IH]; simpl; [discriminate|].
  intros [Hk Hks] Hex. destruct (error_eqb k e) eqn:Hke.
  - f_equal. apply map_ext_in. intros x Hx.
    rewrite Forall_forall in Hk.
    assert (Hxe : error_eqb x e = false).
    { rewrite error_eqb_sym, (error_eqb_trans _ _ _ Hke).
      apply Hk. now apply list_elem_of_In. }
    now rewrite Hxe.
  - f_equal. now apply IH.
Qed.

(** The dict after the records of [l] have been counted. *)
Lemma count_errors_step (l : list ObservedBaseError) (e : ObservedBaseError) :
  let d := map (fun k => (k, same_count k l)) (first_seen l) in
  dict_set d e (1 + dict_get d e 0)
  = map (fun k => (k, same_count k (l ++ [e]))) (first_seen (l ++ [e])).
Proof.
  intros d. unfold d. rewrite first_seen_snoc.
  destruct (existsb (fun x => error_eqb x e) l) eqn:Hex.
  - rewrite (dict_get_present _ e (same_count e l)).
    2:{ now rewrite first_seen_exists. }
    2:{ intros k Hk. now apply same_count_equal. }
    rewrite dict_set_present.
    2:{ apply first_seen_distinct. }
    2:{ now rewrite first_seen_exists. }
    apply map_ext. intros k. rewrite same_count_snoc.
    destruct (error_eqb k e) eqn:Hk; f_equal; [|lia].
    rewrite (same_count_equal _ _ _ Hk). lia.
  - assert (Hfs : existsb (fun x => error_eqb x e) (first_seen l) = false)
      by now rewrite first_seen_exists.
    rewrite dict_get_absent, dict_set_absent by exact Hfs.
    rewrite map_app. simpl. f_equal.
    + apply map_ext_in. intros k Hk. rewrite same_count_snoc.
      pose proof (existsb_false_Forall _ _ Hfs) as Hall.
      rewrite Forall_forall in Hall.
      rewrite (Hall k) by now apply list_elem_of_In.
      f_equal. lia.
    + rewrite same_count_snoc, error_eqb_refl.
      rewrite same_count_absent; [reflexivity|].
      pose proof (existsb_false_Forall _ _ Hex) as Hall.
      eapply Forall_impl; [exact Hall|].
      intros x Hx. simpl in Hx. now rewrite error_eqb_sym.
Qed.

Lemma count_errors_fold (l : list ObservedBaseError) :
  forall l0,
    fold_left (fun d error => dict_set d error (1 + dict_get d error 0)%Z) l
              (map (fun k => (k, same_count k l0)) (first_seen l0))
    = map (fun k => (k, same_count k (l0 ++ l))) (first_seen (l0 ++ l)).
Proof.
  induction l as [|e l IH]; intros l0; simpl.
  - now rewrite app_nil_r.
  - rewrite (count_errors_step l0 e), IH.
    now rewrite <- app_assoc.
Qed.

(** The aggregator returns the first record of every class of equal
    records, in the order of first appearance, with the size of its class
    as occurrence count. *)
Lemma group_identical_errors_first_seen (errors : list ObservedBaseError) :
  group_identical_errors errors
  = map (fun e => set_occurrences (same_count e errors) e) (first_seen errors).
Proof.
  unfold group_identical_errors, count_errors.
  pose proof (count_errors_fold errors []) as H. simpl in H.
  rewrite H. now rewrite map_map.
Qed.

Lemma distinct_set_occurrences (f : ObservedBaseError -> Z)
    (ks : list ObservedBaseError) :
  distinct ks -> distinct (map (fun e => set_occurrences (f e) e) ks).
Proof.
  induction ks as [|k ks IH]; [done|]. intros [Hk Hks]. simpl.
  split; [|now apply IH].
  apply Forall_forall. intros x Hx. apply list_elem_of_In in Hx.
  apply in_map_iff in Hx as (y & <- & Hy).
  rewrite error_eqb_set_occurrences, error_eqb_sym, error_eqb_set_occurrences.
  rewrite error_eqb_sym. rewrite Forall_forall in Hk.
  apply Hk. now apply list_elem_of_In.
Qed.

Lemma occurrences_set_occurrences (n : Z) (e : ObservedBaseError) :
  occurrences (base (set_occurrences n e)) = n.
Proof. now destruct e. Qed.

(** On any list, grouping keeps, for every class of records that are
    equal as the dataclasses compare them (the same class and the same
    value in every field: kind, message, details, location, and also
    location URL, length limits and the issue fields; the occurrence count
    apart), the first record of the class, with the size of the class as
    its occurrence count; the kept records are in the order in which their
    classes first appear; no two of them are equal and every input record
    is equal to one of them. *)
Lemma grouping_by_equality (errors : list ObservedBaseError) :
  let grouped := group_identical_errors errors in
  grouped
    = map (fun e => set_occurrences (same_count e errors) e)
          (first_seen errors) /\
  distinct grouped /\
  forall e, In e errors ->
    exists r, In r grouped /\ error_eqb r e = true /\
              occurrences (base r) = same_count e errors.
Proof.
  intros grouped. unfold grouped.
  rewrite group_identical_errors_first_seen.
  split; [reflexivity|]. split.
  - apply distinct_set_occurrences, first_seen_distinct.
  - intros e He.
    assert (Hex : existsb (fun x => error_eqb x e) (first_seen errors) = true).
    { rewrite first_seen_exists. apply existsb_exists.
      exists e. split; [exact He|apply error_eqb_refl]. }
    apply existsb_exists in Hex as (k & Hk & Hke).
    exists (set_occurrences (same_count k errors) k). split; [|split].
    + apply in_map_iff. now exists k.
    + now rewrite error_eqb_set_occurrences.
    + rewrite occurrences_set_occurrences. now apply same_count_equal.
Qed.


Section RegressionFacts.

Variable for_github_re : string -> string.
Variable lower : string -> string.
Variable step_key : string.
Variable buildkite_label : string.
Variable successful_buildkite_status : bool.

Local Abbreviation matches :=
  (entry_matches for_github_re lower step_key buildkite_label).
Local Abbreviation handle :=
  (handle_error for_github_re lower step_key buildkite_label).


End RegressionFacts.



(** ** The scenarios of the specification, evaluated *)

(** Scenario 1: a segfault line, no ignore pattern, no issue: one unknown
    error and exit code 1 (the line is dropped in a coverage build). *)
Example scenario_segfault :
  _collect_errors_in_logs false "segfault at 0x0 in environmentd" "services.log"
    = [mkErrorLog "segfault at 0x0 in environmentd" "services.log"] /\
  _collect_errors_in_logs true "segfault at 0x0 in environmentd" "services.log"
    = [] /\
  annotate_logged_errors (fun s => s) ascii_lower "tests" "Tests" None []
    (fun _ => "https://artifacts/") [] []
    [OfErrorLog (mkErrorLog "segfault at 0x0 in environmentd" "services.log")]
    = Some 1%Z.
Proof. vm_compute. repeat split. Qed.

(** Scenario 2: a fatal line that an ignore pattern matches is not
    reported. *)
Example scenario_forced_panic :
  _collect_errors_in_logs false
    ("mz | internal error: forced panic" +:+ nl +:+ "mz | fine" +:+ nl)
    "services.log" = [].
Proof. vm_compute. reflexivity. Qed.

(** Scenario 3: the two lines of a panic of [svcA]. *)
Example scenario_panic :
  _collect_service_panics_in_logs
    ("svcA | thread 'x' panicked at " +:+ nl +:+
     "svcA | out of memory" +:+ nl) "services.log"
  = Ok [mkErrorLog "svcA | thread 'x' panicked at  out of memory"
                   "services.log"].
Proof. vm_compute. reflexivity. Qed.

(** The restriction itself is not lower-cased by [handle_error]: an
    [apply_to] with an upper-case letter equals no lower-cased key or
    label. *)
Example upper_case_restriction_is_out_of_scope :
  out_of_scope ascii_lower "Tests" "Tests"
    (mkIssue (fun _ => true) (Some "Tests") "open" 4 "https://issues/"
             "an issue") = true.
Proof. reflexivity. Qed.

(** The decoder on well-formed and on ill-formed bytes: ASCII, a sequence
    of two, three and four bytes; a lone byte 0xFF, an overlong form, a
    surrogate, a code point above U+10FFFF and a truncated sequence. *)
Example utf8_valid_examples :
  let bytes := fold_right (fun n s => String (ascii_of_N n) s) EmptyString in
  utf8_valid "segfault at 0x0" = true /\
  utf8_valid (bytes [195; 169]%N) = true /\
  utf8_valid (bytes [226; 130; 172]%N) = true /\
  utf8_valid (bytes [240; 159; 152; 128]%N) = true /\
  utf8_valid (bytes [255; 32; 115]%N) = false /\
  utf8_valid (bytes [192; 128]%N) = false /\
  utf8_valid (bytes [237; 160; 128]%N) = false /\
  utf8_valid (bytes [244; 144; 128; 128]%N) = false /\
  utf8_valid (bytes [226; 130]%N) = false.
Proof. vm_compute. repeat split. Qed.

(** A log match that is not well-formed UTF-8 makes the run raise. *)
Example scenario_undecodable_match :
  annotate_logged_errors (fun s => s) ascii_lower "tests" "Tests" None []
    (fun _ => "https://artifacts/") [] []
    [OfErrorLog (mkErrorLog (String (ascii_of_N 255) " segfault at 0x0")
                            "services.log")]
  = None.
Proof. vm_compute. reflexivity. Qed.

(** * Further properties of the module *)

(** ** The panic correlator *)

Lemma panic_lines_idle (file : string) (lines : list string)
    (st : panic_state) :
  open_panics st = ∅ ->
  Forall (fun raw => rmatch false PANIC_IN_SERVICE_START_RE
                       (rstrip_newline raw) = None) lines ->
  panic_lines file st lines = Ok st.
Proof.
  intros Hempty. induction 1 as [|raw lines Hraw _ IH]; [reflexivity|].
  simpl. unfold panic_line. rewrite Hraw.
  now rewrite decide_True by exact Hempty.
Qed.

(** X1. A buffer without a panic start line gives no record and no
    assertion error, whatever its labeled lines are. *)
Theorem no_panic_start_no_record (data log_file_name : string) :
  Forall (fun raw => rmatch false PANIC_IN_SERVICE_START_RE
                       (rstrip_newline raw) = None) (readlines data) ->
  _collect_service_panics_in_logs data log_file_name = Ok [].
Proof.
  intros H. unfold _collect_service_panics_in_logs.
  rewrite (panic_lines_idle _ _ (PanicState ∅ [])) by (reflexivity || exact H).
  simpl. now rewrite decide_True.
Qed.

Lemma no_panic_start_no_record_witness :
  _collect_service_panics_in_logs
    ("svcA | out of memory" +:+ nl +:+ "svcB | thread main is fine" +:+ nl)
    "services.log" = Ok [].
Proof.
  apply no_panic_start_no_record.
  repeat constructor.
Defined.

Lemma pending_from_more (seen more : list string) (st : panic_state) :
  pending_from seen st -> pending_from (seen ++ more) st.
Proof.
  intros H s l Hl. destruct (H s l Hl) as (raw & m0 & Hin & Hrest).
  exists raw, m0. split; [apply in_or_app; now left|exact Hrest].
Qed.

Lemma panic_record_more (seen more : list string) (file : string)
    (e : ErrorLog) :
  panic_record seen file e -> panic_record (seen ++ more) file e.
Proof.
  intros (Hf & a & b & m0 & m & Ha & Hb & Hrest).
  split; [exact Hf|]. exists a, b, m0, m.
  split; [apply in_or_app; now left|].
  split; [apply in_or_app; now left|exact Hrest].
Qed.

(** One line keeps the two invariants of the scan. *)
Lemma panic_line_provenance (file : string) (seen : list string)
    (st st' : panic_state) (raw : string) :
  pending_from seen st ->
  Forall (panic_record seen file) (collected_panics st) ->
  panic_line file st raw = Ok st' ->
  pending_from (seen ++ [raw]) st' /\
  Forall (panic_record (seen ++ [raw]) file) (collected_panics st').
Proof.
  intros Hpend Hcoll Hstep.
  assert (Hpend' : pending_from (seen ++ [raw]) st)
    by now apply pending_from_more.
  assert (Hcoll' : Forall (panic_record (seen ++ [raw]) file)
                          (collected_panics st)).
  { eapply Forall_impl; [exact Hcoll|].
    intros e. apply panic_record_more. }
  assert (Hraw : In raw (seen ++ [raw]))
    by (apply in_or_app; right; now left).
  unfold panic_line in Hstep.
  destruct (rmatch false PANIC_IN_SERVICE_START_RE (rstrip_newline raw))
    as [m0|] eqn:Hp.
  - destruct (decide _); [discriminate|]. injection Hstep as <-. simpl.
    split; [|exact Hcoll'].
    intros s l. simpl.
    destruct (decide (group m0 "service" = s)) as [<-|Hne].
    + rewrite lookup_insert_eq. intros [= <-]. now exists raw, m0.
    + rewrite lookup_insert_ne by done. apply Hpend'.
  - destruct (decide _); [injection Hstep as <-; now split|].
    destruct (rmatch false SERVICES_LOG_LINE_RE (rstrip_newline raw))
      as [m|] eqn:Hs; [|injection Hstep as <-; now split].
    destruct (open_panics st !! group m "service") as [ps|] eqn:Hl;
      [|injection Hstep as <-; now split].
    destruct (truthy ps); [|injection Hstep as <-; now split].
    assert (Hdel : forall c, pending_from (seen ++ [raw])
              (PanicState (delete (group m "service") (open_panics st)) c)).
    { intros c s l. simpl. intros Hsl.
      apply lookup_delete_Some in Hsl as [_ Hsl]. now apply Hpend'. }
    rewrite (services_log_line_group0 _ _ Hs) in Hstep.
    destruct (IGNORE_RE_search (rstrip_newline raw)) eqn:Hign;
      injection Hstep as <-; simpl.
    + split; [apply Hdel|exact Hcoll'].
    + split; [apply Hdel|].
      apply Forall_app. split; [exact Hcoll'|].
      constructor; [|constructor].
      destruct (Hpend' _ _ Hl) as (raw0 & m0 & Hin0 & -> & Hm0 & Hsvc).
      split; [reflexivity|].
      exists raw0, raw, m0, m. now repeat split.
Qed.

Lemma panic_lines_provenance (file : string) (lines : list string) :
  forall seen st st',
    pending_from seen st ->
    Forall (panic_record seen file) (collected_panics st) ->
    panic_lines file st lines = Ok st' ->
    pending_from (seen ++ lines) st' /\
    Forall (panic_record (seen ++ lines) file) (collected_panics st').
Proof.
  induction lines as [|raw lines IH]; intros seen st st' Hpend Hcoll; simpl.
  - intros [= <-]. now rewrite app_nil_r.
  - destruct (panic_line file st raw) as [st1|] eqn:E; [|discriminate].
    intros Hrun.
    destruct (panic_line_provenance _ _ _ _ _ Hpend Hcoll E) as [Hp1 Hc1].
    replace (seen ++ raw :: lines) with ((seen ++ [raw]) ++ lines)
      by (now rewrite <- app_assoc).
    now apply (IH _ st1).
Qed.

(** X2. Every record the correlator returns carries the name of the file
    and is made of a panic start line of the buffer, a blank and the
    message of a labeled line of the buffer, of the same service, that is
    not a panic start and that the ignore patterns do not match. *)
Theorem panic_records_come_from_the_buffer
    (data log_file_name : string) (collected : list ErrorLog) :
  _collect_service_panics_in_logs data log_file_name = Ok collected ->
  Forall (panic_record (readlines data) log_file_name) collected.
Proof.
  unfold _collect_service_panics_in_logs.
  destruct (panic_lines log_file_name (PanicState ∅ []) (readlines data))
    as [st|] eqn:E; [|discriminate].
  destruct (decide _); [|discriminate]. intros [= <-].
  apply (panic_lines_provenance log_file_name (readlines data) []
           (PanicState ∅ []) st); [| |exact E].
  - intros s l. simpl. now rewrite lookup_empty.
  - constructor.
Qed.

Lemma panic_records_come_from_the_buffer_witness :
  Forall (panic_record
            ["svcA | thread 'x' panicked at " +:+ nl;
             "svcA | out of memory" +:+ nl] "services.log")
         [mkErrorLog "svcA | thread 'x' panicked at  out of memory"
                     "services.log"].
Proof.
  apply (panic_records_come_from_the_buffer
           ("svcA | thread 'x' panicked at " +:+ nl +:+
            "svcA | out of memory" +:+ nl) "services.log").
  vm_compute. reflexivity.
Defined.

(** ** The scanner *)

(** X3. In a coverage build the scanner reports what it reports otherwise,
    in the same order, without the matches that hold both [environmentd]
    and [segfault at]. *)
Theorem coverage_build_drops_environmentd_segfaults
    (data log_file_name : string) :
  _collect_errors_in_logs true data log_file_name
  = List.filter (fun e => negb (coverage_segfault e))
                (_collect_errors_in_logs false data log_file_name).
Proof.
  unfold _collect_errors_in_logs.
  induction (ERROR_RE_finditer data) as [|[off m] matches IH];
    [reflexivity|].
  simpl. destruct (IGNORE_RE_search (group0 m)); [exact IH|].
  rewrite andb_true_r, andb_false_r.
  destruct (contains "environmentd" (group0 m)
            && contains "segfault at" (group0 m)) eqn:E; simpl.
  - unfold coverage_segfault. simpl. now rewrite E.
  - unfold coverage_segfault at 1. simpl. rewrite E. simpl. now rewrite IH.
Qed.

Lemma last_char_snoc (s : string) (a : ascii) :
  last_char (s +:+ String a EmptyString) = Some a.
Proof.
  induction s as [|b s IH]; [reflexivity|].
  rewrite string_app_cons. simpl. rewrite IH.
  now destruct (s +:+ String a EmptyString) eqn:E; [destruct s; discriminate|].
Qed.

Lemma last_char_Some (s : string) (a : ascii) :
  last_char s = Some a -> exists b, s = b +:+ String a EmptyString.
Proof.
  induction s as [|c s IH]; [discriminate|].
  destruct s as [|d s].
  - simpl. intros [= ->]. now exists EmptyString.
  - intros H. destruct (IH H) as [b Hb]. exists (String c b).
    rewrite string_app_cons. now rewrite <- Hb.
Qed.

Lemma last_char_None (s : string) : last_char s = None -> s = EmptyString.
Proof.
  induction s as [|c s IH]; [reflexivity|].
  destruct s as [|d s]; [discriminate|].
  intros H. apply IH in H. discriminate.
Qed.

(** A match of [ERROR_RE] starts where [^] holds and ends where [$]
    holds. *)
Lemma ERROR_RE_match_anchored (p : option ascii) (s : string) (m : match_obj) :
  match_at true ERROR_RE p s = Some m ->
  (p = None \/ p = Some newline) /\
  exists t, s = group0 m +:+ t /\
            (t = EmptyString \/ exists a, t = nl +:+ a).
Proof.
  unfold match_at.
  destruct (run true ERROR_RE (Cursor p s [])) as [|st l] eqn:E;
    [discriminate|].
  intros [= <-]. simpl.
  assert (Hin : In st (run true ERROR_RE (Cursor p s [])))
    by (rewrite E; now left).
  destruct (ReFacts.run_suffix _ _ _ _ Hin) as [u Hu]. simpl in Hu.
  unfold ERROR_RE in Hin. cbn [seqs] in Hin.
  rewrite run_Seq in Hin. apply in_flat_map in Hin as (s1 & Hbol & Hin).
  rewrite run_Seq in Hin. apply in_flat_map in Hin as (s2 & _ & Hin).
  rewrite run_Seq in Hin. apply in_flat_map in Hin as (s3 & _ & Hin).
  rewrite run_Seq in Hin. apply in_flat_map in Hin as (s4 & _ & Hin).
  split.
  - cbn [run] in Hbol. unfold at_bol in Hbol. simpl in Hbol.
    destruct p as [a|]; [|now left].
    destruct (Ascii.eqb a newline) eqn:Ha; [|destruct Hbol].
    apply Ascii.eqb_eq in Ha. right. now subst.
  - cbn [run] in Hin. destruct (at_eol true s4) eqn:Heol; [|destruct Hin].
    destruct Hin as [<-|[]].
    exists (rest s4). split; [now rewrite Hu, consumed_app|].
    unfold at_eol in Heol. destruct (rest s4) as [|a t]; [now left|].
    apply andb_true_iff in Heol as [Heol _].
    apply Ascii.eqb_eq in Heol. subst a. right. now exists t.
Qed.

Lemma finditer_from_lines (s : string) :
  forall (before : string) (skip : nat) (p : option ascii),
    p = last_char before ->
    forall off m,
      In (off, m) (finditer_from true ERROR_RE skip (String.length before) p s) ->
      line_span (before +:+ s) off (group0 m).
Proof.
  assert (Hhere : forall before p s0 m,
            p = last_char before ->
            match_at true ERROR_RE p s0 = Some m ->
            line_span (before +:+ s0) (String.length before) (group0 m)).
  { intros before p s0 m Hp Hm.
    destruct (ERROR_RE_match_anchored _ _ _ Hm) as (Hbol & t & Hs & Heol).
    exists before, t. split; [now rewrite <- Hs|]. split; [reflexivity|].
    split; [|exact Heol].
    destruct Hbol as [Hn|Hn]; rewrite Hn in Hp.
    - left. symmetry in Hp. exact (last_char_None _ Hp).
    - right. symmetry in Hp. exact (last_char_Some _ _ Hp). }
  induction s as [|a s IH]; intros before skip p Hp off m.
  - destruct skip as [|k]; simpl; [|intros []].
    destruct (match_at true ERROR_RE p EmptyString) as [m'|] eqn:E;
      [|intros []].
    intros [[= <- <-]|[]]. now apply (Hhere before p).
  - assert (Hdata : (before +:+ String a EmptyString) +:+ s
                    = before +:+ String a s)
      by now rewrite string_app_assoc.
    assert (Hlen : String.length (before +:+ String a EmptyString)
                   = S (String.length before))
      by (rewrite string_length_app; simpl; lia).
    assert (Hnext : forall k,
              In (off, m) (finditer_from true ERROR_RE k
                             (S (String.length before)) (Some a) s) ->
              line_span (before +:+ String a s) off (group0 m)).
    { intros k Hin. rewrite <- Hdata. rewrite <- Hlen in Hin.
      eapply (IH _ k (Some a)); [|exact Hin].
      now rewrite last_char_snoc. }
    destruct skip as [|k]; simpl; [|apply Hnext].
    destruct (match_at true ERROR_RE p (String a s)) as [m'|] eqn:E.
    + intros [[= <- <-]|Hin]; [now apply (Hhere before p)|].
      eapply Hnext; exact Hin.
    + apply Hnext.
Qed.

Lemma finditer_from_not_empty (s : string) :
  forall (skip pos : nat) (p : option ascii) off m,
    In (off, m) (finditer_from true ERROR_RE skip pos p s) ->
    group0 m <> EmptyString.
Proof.
  induction s as [|a s IH]; intros skip pos p off m.
  - destruct skip; simpl; [|intros []].
    destruct (match_at true ERROR_RE p EmptyString) eqn:E; [|intros []].
    intros [[= <- <-]|[]]. eapply ERROR_RE_match_not_empty; eauto.
  - destruct skip; simpl; [|apply IH].
    destruct (match_at true ERROR_RE p (String a s)) eqn:E; [|apply IH].
    intros [[= <- <-]|Hin]; [eapply ERROR_RE_match_not_empty; eauto|].
    eapply IH; eauto.
Qed.

(** X4. Every match the scanner reports fills whole lines of the buffer:
    it is not empty, it starts at the start of the buffer or right after a
    newline, and it ends at the end of the buffer or right before a
    newline. *)
Theorem scanner_reports_whole_lines
    (ci_coverage_enabled : bool) (data log_file_name : string) (e : ErrorLog) :
  In e (_collect_errors_in_logs ci_coverage_enabled data log_file_name) ->
  match_ e <> EmptyString /\
  file e = log_file_name /\
  exists off, line_span data off (match_ e).
Proof.
  unfold _collect_errors_in_logs, ERROR_RE_finditer, finditer.
  pose proof (finditer_from_lines data EmptyString 0 None eq_refl) as Hspan.
  simpl in Hspan.
  pose proof (finditer_from_not_empty data 0 0 None) as Hne.
  induction (finditer_from true ERROR_RE 0 0 None data) as [|[off m] l IH];
    [intros []|].
  simpl.
  assert (Hrest : In e (collect_errors_loop ci_coverage_enabled
                          log_file_name l) ->
                  match_ e <> EmptyString /\ file e = log_file_name /\
                  exists off0, line_span data off0 (match_ e)).
  { apply IH.
    - intros o x Hx. apply Hspan. now right.
    - intros o x Hx. eapply Hne. right. exact Hx. }
  destruct (IGNORE_RE_search (group0 m)); [exact Hrest|].
  destruct (contains "environmentd" (group0 m)
            && contains "segfault at" (group0 m) && ci_coverage_enabled);
    [exact Hrest|].
  intros [<-|Hin]; [|now apply Hrest]. simpl.
  split; [eapply Hne; now left|]. split; [reflexivity|].
  exists off. apply Hspan. now left.
Qed.

Lemma scanner_reports_whole_lines_witness :
  exists off,
    line_span ("ok" +:+ nl +:+ "x segfault at 0x0" +:+ nl +:+ "ok" +:+ nl)
              off "x segfault at 0x0".
Proof.
  refine (proj2 (proj2 (scanner_reports_whole_lines false
            ("ok" +:+ nl +:+ "x segfault at 0x0" +:+ nl +:+ "ok" +:+ nl)
            "services.log" (mkErrorLog "x segfault at 0x0" "services.log") _))).
  vm_compute. now left.
Defined.

(** ** Reading the files *)

(** X5. Every record read from a log file, match of the scanner or panic
    of the correlator, carries the name of that file; an empty file gives
    none. *)
Theorem log_file_records_carry_its_name
    (ci_coverage_enabled : bool) (data log_file_name : string)
    (error_logs : list ErrorLog) :
  _get_errors_from_log_file ci_coverage_enabled data log_file_name
    = Ok error_logs ->
  Forall (fun e => file e = log_file_name) error_logs /\
  (data = EmptyString -> error_logs = []).
Proof.
  unfold _get_errors_from_log_file.
  destruct data as [|a data]; [intros [= <-]; now split|].
  destruct (_collect_service_panics_in_logs (String a data) log_file_name)
    as [panics|] eqn:E; [|discriminate].
  intros [= <-]. split; [|discriminate].
  apply Forall_app. split.
  - unfold _collect_errors_in_logs.
    induction (ERROR_RE_finditer (String a data)) as [|[off m] l IH];
      [constructor|].
    simpl. destruct (IGNORE_RE_search (group0 m)); [exact IH|].
    destruct (contains "environmentd" (group0 m)
              && contains "segfault at" (group0 m) && ci_coverage_enabled);
      [exact IH|].
    now constructor.
  - unfold _collect_service_panics_in_logs in E.
    destruct (panic_lines log_file_name (PanicState ∅ [])
                (readlines (String a data))) as [st|] eqn:Hrun;
      [|discriminate].
    destruct (decide _); [|discriminate]. injection E as <-.
    destruct (panic_lines_provenance log_file_name
                (readlines (String a data)) [] (PanicState ∅ []) st)
      as [_ Hall]; [| |exact Hrun|].
    + intros s l. simpl. now rewrite lookup_empty.
    + constructor.
    + eapply Forall_impl; [exact Hall|]. now intros x [Hf _].
Qed.

Lemma log_file_records_carry_its_name_witness :
  Forall (fun e => file e = "services.log")
    [mkErrorLog "svcA | out of memory" "services.log";
     mkErrorLog "svcA | thread 'x' panicked at  out of memory" "services.log"].
Proof.
  refine (proj1 (log_file_records_carry_its_name false
            ("svcA | thread 'x' panicked at " +:+ nl +:+
             "svcA | out of memory" +:+ nl) "services.log" _ _)).
  vm_compute. reflexivity.
Defined.

Section GetErrorsFacts.

Variable ci_coverage_enabled : bool.
Variable read_log : string -> string.
Variable read_junit : string -> list (list TestCase).

Local Abbreviation loop :=
  (get_errors_loop ci_coverage_enabled read_log read_junit).

Lemma get_errors_loop_acc (names : list string) :
  forall acc,
    loop names acc
    = match loop names [] with
      | Ok l => Ok (acc ++ l)
      | Raise e => Raise e
      end.
Proof.
  induction names as [|n names IH]; intros acc; simpl.
  - now rewrite app_nil_r.
  - destruct (is_junit_file n).
    + rewrite IH. rewrite (IH (map OfJunitError _)).
      destruct (loop names []); [|reflexivity]. now rewrite app_assoc.
    + destruct (_get_errors_from_log_file ci_coverage_enabled (read_log n) n)
        as [l|]; [|reflexivity].
      rewrite IH. rewrite (IH (map OfErrorLog l)).
      destruct (loop names []); [|reflexivity]. now rewrite app_assoc.
Qed.

(** X6. The errors of a list of files are the errors of its files in the
    order of the list: reading two lists one after the other gives the
    errors of the first followed by those of the second, and the first
    file whose scan aborts ends the whole call. *)
Theorem get_errors_follows_the_file_list (names names' : list string) :
  get_errors ci_coverage_enabled read_log read_junit (names ++ names')
  = match get_errors ci_coverage_enabled read_log read_junit names with
    | Ok l =>
        match get_errors ci_coverage_enabled read_log read_junit names' with
        | Ok l' => Ok (l ++ l')
        | Raise e => Raise e
        end
    | Raise e => Raise e
    end.
Proof.
  unfold get_errors. induction names as [|n names IH]; simpl.
  - now destruct (loop names' []).
  - assert (Hacc : forall acc,
              loop (names ++ names') acc
              = match loop names acc with
                | Ok l =>
                    match loop names' [] with
                    | Ok l' => Ok (l ++ l')
                    | Raise e => Raise e
                    end
                | Raise e => Raise e
                end).
    { intros acc.
      rewrite (get_errors_loop_acc (names ++ names') acc), IH.
      rewrite (get_errors_loop_acc names acc).
      destruct (loop names []); [|reflexivity].
      destruct (loop names' []); [|reflexivity].
      now rewrite app_assoc. }
    destruct (is_junit_file n); [apply Hacc|].
    destruct (_get_errors_from_log_file ci_coverage_enabled (read_log n) n);
      [apply Hacc|reflexivity].
Qed.

End GetErrorsFacts.

(** X7. The records of a JUnit document are, suite after suite and test
    case after test case, one per result entry that is an error or a
    failure, with the class and name of its test case and an empty string
    for a missing message or text; there are as many records as such
    entries. *)
Theorem junit_records_are_the_failing_results (xml : list (list TestCase)) :
  let failing tc := List.filter is_error_or_failure (result_ tc) in
  _get_errors_from_junit_file xml
  = flat_map
      (fun tc =>
         map (fun r => mkJunitError (classname tc) (name tc)
                         (or_empty (result_message r))
                         (or_empty (result_text r)))
             (failing tc))
      (concat xml) /\
  length (_get_errors_from_junit_file xml)
  = list_sum (map (fun tc => length (failing tc)) (concat xml)).
Proof.
  intros failing.
  assert (Hres : forall tc rs,
            junit_results_loop tc rs
            = map (fun r => mkJunitError (classname tc) (name tc)
                              (or_empty (result_message r))
                              (or_empty (result_text r)))
                  (List.filter is_error_or_failure rs)).
  { intros tc rs. induction rs as [|r rs IH]; [reflexivity|].
    simpl. destruct (is_error_or_failure r); simpl; now rewrite IH. }
  assert (Hcases : forall suite,
            junit_cases_loop suite
            = flat_map
                (fun tc =>
                   map (fun r => mkJunitError (classname tc) (name tc)
                                   (or_empty (result_message r))
                                   (or_empty (result_text r)))
                       (failing tc)) suite).
  { induction suite as [|tc suite IH]; [reflexivity|].
    simpl. now rewrite Hres, IH. }
  assert (Heq : _get_errors_from_junit_file xml
                = flat_map
                    (fun tc =>
                       map (fun r => mkJunitError (classname tc) (name tc)
                                       (or_empty (result_message r))
                                       (or_empty (result_text r)))
                           (failing tc)) (concat xml)).
  { induction xml as [|suite xml IH]; [reflexivity|].
    simpl. now rewrite flat_map_app, Hcases, IH. }
  split; [exact Heq|].
  rewrite Heq. generalize (concat xml). intros l.
  induction l as [|tc l IH]; [reflexivity|].
  simpl. now rewrite length_app, length_map, IH.
Qed.

(** ** The run of the classifier *)
Section MoreRunFacts.

Variable for_github_re : string -> string.
Variable lower : string -> string.
Variable step_key : string.
Variable buildkite_label : string.
Variable job : option string.
Variable artifacts : list Artifact.
Variable get_artifact_url : Artifact -> string.
Variable known_issues : list KnownGitHubIssue.

Local Abbreviation handle :=
  (handle_error for_github_re lower step_key buildkite_label known_issues).
Local Abbreviation classify :=
  (classify_error for_github_re lower step_key buildkite_label job artifacts
                  get_artifact_url known_issues).
Local Abbreviation run_errors :=
  (classify_errors for_github_re lower step_key buildkite_label job artifacts
                   get_artifact_url known_issues).
Local Abbreviation loop_from :=
  (classify_loop for_github_re lower step_key buildkite_label job artifacts
                 get_artifact_url known_issues).

Lemma report_issue_appends (closed : bool) (issue : KnownGitHubIssue)
    (msg : string) (d : option string) (loc : string) (url : option string)
    (st : classify_state) :
  appends st (report_issue closed issue msg d loc url st).
Proof.
  unfold report_issue.
  destruct (decide (info_number issue ∈ already_reported_issue_numbers st))
    as [Hin|Hnew].
  - exists [], []. rewrite !app_nil_r. repeat split; simpl; try lia; try done.
    intros He. rewrite He in Hin. set_solver.
  - destruct closed; simpl.
    + exists [issue_record true issue msg d loc url], [].
      rewrite app_nil_r. repeat split; simpl; try lia; try done. set_solver.
    + exists [], [issue_record false issue msg d loc url].
      rewrite app_nil_r. repeat split; simpl; try lia; try done. set_solver.
Qed.

Lemma handle_error_appends (msg : string) (d : option string) (loc : string)
    (url : option string) (st : classify_state) :
  appends st (handle msg d loc url st).
Proof.
  unfold handle_error.
  destruct (issue_loop_cases for_github_re lower step_key buildkite_label
              false (search_string_of msg d) msg d loc url known_issues st)
    as [[i ->]| ->]; [apply report_issue_appends|].
  destruct (issue_loop_cases for_github_re lower step_key buildkite_label
              true (search_string_of msg d) msg d loc url known_issues st)
    as [[i ->]| ->]; [apply report_issue_appends|].
  exists [unknown_record msg d loc url], []. simpl.
  rewrite app_nil_r. repeat split; simpl; try lia; try done.
Qed.

Lemma classify_error_appends (st st' : classify_state)
    (error : LoggedError) :
  classify st error = Some st' -> appends st st'.
Proof.
  intros Hstep. destruct error as [e|e]; simpl in Hstep.
  - unfold decode_utf8 in Hstep.
    destruct (utf8_valid (match_ e)); [|discriminate].
    injection Hstep as <-. apply handle_error_appends.
  - destruct (contains "in Code Coverage" (text e)
              || contains "covered" (message e));
      injection Hstep as <-; [|apply handle_error_appends].
    eexists [], [_]. simpl. rewrite app_nil_r.
    repeat split; simpl; try lia; try done.
Qed.

Lemma fold_classify_appends (errors : list LoggedError) :
  forall st st',
    loop_from errors st = Some st' ->
    exists ku kk,
      unknown_errors st' = unknown_errors st ++ ku /\
      known_errors st' = known_errors st ++ kk /\
      (length ku + length kk <= length errors)%nat /\
      already_reported_issue_numbers st ⊆ already_reported_issue_numbers st'.
Proof.
  induction errors as [|e errors IH]; intros st st' Hrun;
    cbn [classify_loop] in Hrun.
  - injection Hrun as <-.
    exists [], []. rewrite !app_nil_r. repeat split; simpl; try lia; done.
  - destruct (classify st e) as [st1|] eqn:Hstep; [|discriminate].
    destruct (classify_error_appends st st1 e Hstep)
      as (ku & kk & Hu & Hk & Hlen & Hsub & _).
    destruct (IH st1 st' Hrun) as (ku' & kk' & Hu' & Hk' & Hlen' & Hsub').
    exists (ku ++ ku'), (kk ++ kk').
    rewrite Hu', Hk', Hu, Hk, !app_assoc, !length_app.
    repeat split; simpl; try lia. set_solver.
Qed.

(** X8. Records are only ever appended: what a run has put in the two
    lists and in the set of reported numbers after some errors is still
    there, at the same place, after more errors. *)
Theorem run_only_appends
    (issues_with_invalid_regex : list ObservedBaseError)
    (errors more : list LoggedError) (st st' : classify_state) :
  run_errors issues_with_invalid_regex errors = Some st ->
  run_errors issues_with_invalid_regex (errors ++ more) = Some st' ->
  (exists ku, unknown_errors st' = unknown_errors st ++ ku) /\
  (exists kk, known_errors st' = known_errors st ++ kk) /\
  already_reported_issue_numbers st ⊆ already_reported_issue_numbers st'.
Proof.
  unfold classify_errors. intros Hrun Hmore.
  rewrite (classify_loop_app for_github_re lower step_key buildkite_label job
             artifacts get_artifact_url known_issues), Hrun in Hmore.
  destruct (fold_classify_appends more st st' Hmore)
    as (ku & kk & Hu & Hk & _ & Hsub).
  split; [now exists ku|]. split; [now exists kk|exact Hsub].
Qed.

(** X9. A run over a non-empty list of errors whose log matches are all
    well-formed UTF-8 returns, and every error adds at most one record and
    the first one adds exactly one: the two lists together hold at least one
    record more than the invalid-pattern records they started with, so that
    the assertion of [annotate_errors] holds, and at most one more per
    error. *)
Theorem run_emits_a_record
    (issues_with_invalid_regex : list ObservedBaseError)
    (errors : list LoggedError) :
  errors <> [] ->
  forallb decodable errors = true ->
  exists st,
    run_errors issues_with_invalid_regex errors = Some st /\
    (length issues_with_invalid_regex + 1
       <= length (unknown_errors st) + length (known_errors st))%nat /\
    (length (unknown_errors st) + length (known_errors st)
       <= length issues_with_invalid_regex + length errors)%nat /\
    (0 < length (unknown_errors st) \/ 0 < length (known_errors st))%nat.
Proof.
  intros Hne Hdec.
  apply (classify_loop_returns for_github_re lower step_key buildkite_label
           job artifacts get_artifact_url known_issues errors
           (ClassifyState issues_with_invalid_regex [] ∅)) in Hdec
    as [st Hrun].
  exists st. split; [exact Hrun|].
  destruct errors as [|e errors]; [done|]. clear Hne.
  cbn [classify_loop] in Hrun.
  destruct (classify (ClassifyState issues_with_invalid_regex [] ∅) e)
    as [st1|] eqn:Hstep; [|discriminate].
  destruct (classify_error_appends _ _ _ Hstep)
    as (ku & kk & Hu & Hk & Hlen & _ & Hone).
  specialize (Hone eq_refl).
  destruct (fold_classify_appends errors st1 st Hrun)
    as (ku' & kk' & Hu' & Hk' & Hlen' & _).
  rewrite Hu', Hk', Hu, Hk. simpl. rewrite !length_app. simpl. lia.
Qed.

End MoreRunFacts.

Lemma run_only_appends_witness :
  let registry := [issue_matching_all "open" 2] in
  let first := OfErrorLog (mkErrorLog "internal error: first" "services.log") in
  let second := OfJunitError (mkJunitError "suite" "case" "timeout" "lines") in
  let st := ClassifyState []
              [issue_record false (issue_matching_all "open" 2)
                            "internal error: first" None "services.log" None]
              ({[2%Z]} ∪ ∅) in
  exists kk, known_errors st = known_errors st ++ kk.
Proof.
  intros registry first second st.
  assert (Hrun : classify_errors (fun s => s) ascii_lower "tests" "Tests" None
                   [] (fun _ => "https://artifacts/") registry [] [first]
                 = Some st) by reflexivity.
  assert (Hmore : classify_errors (fun s => s) ascii_lower "tests" "Tests"
                    None [] (fun _ => "https://artifacts/") registry []
                    ([first] ++ [second])
                  = Some st) by (vm_compute; reflexivity).
  exact (proj1 (proj2 (run_only_appends (fun s => s) ascii_lower "tests"
                         "Tests" None [] (fun _ => "https://artifacts/")
                         registry [] [first] [second] st st Hrun Hmore))).
Defined.

Lemma run_emits_a_record_witness :
  exists st,
    classify_errors (fun s => s) ascii_lower "tests" "Tests" None []
      (fun _ => "https://artifacts/") [issue_matching_all "open" 2] []
      [OfErrorLog (mkErrorLog "internal error: first" "services.log");
       OfErrorLog (mkErrorLog "internal error: second" "services.log")]
    = Some st /\
    (0 < length (unknown_errors st) \/ 0 < length (known_errors st))%nat.
Proof.
  assert (Hne : [OfErrorLog (mkErrorLog "internal error: first" "services.log");
                 OfErrorLog (mkErrorLog "internal error: second"
                                        "services.log")] <> [])
    by discriminate.
  destruct (run_emits_a_record (fun s => s) ascii_lower "tests" "Tests" None
              [] (fun _ => "https://artifacts/")
              [issue_matching_all "open" 2] []
              [OfErrorLog (mkErrorLog "internal error: first" "services.log");
               OfErrorLog (mkErrorLog "internal error: second" "services.log")]
              Hne eq_refl) as (st & Hrun & _ & _ & Hsome).
  exists st. split; [exact Hrun|exact Hsome].
Defined.

Lemma first_seen_repeat (r : ObservedBaseError) (n : nat) :
  first_seen (repeat r (S n)) = [r].
Proof.
  induction n as [|n IH]; [reflexivity|].
  change (first_seen (repeat r (S (S n))))
    with (r :: filter (fun x => error_eqb r x = false)
                      (first_seen (repeat r (S n)))).
  rewrite IH, filter_cons, decide_False, filter_nil; [done|].
  now rewrite error_eqb_refl.
Qed.

Lemma same_count_repeat (r : ObservedBaseError) (n : nat) :
  same_count r (repeat r n) = Z.of_nat n.
Proof.
  induction n as [|n IH]; [reflexivity|].
  simpl repeat. rewrite same_count_cons, error_eqb_refl, IH. lia.
Qed.

Lemma first_seen_In (l : list ObservedBaseError) (k : ObservedBaseError) :
  In k (first_seen l) -> In k l.
Proof.
  induction l as [|a l IH]; [done|]. simpl. intros [->|H]; [now left|].
  right. apply IH. apply list_elem_of_In in H.
  apply list_elem_of_filter in H as [_ H]. now apply list_elem_of_In.
Qed.

Lemma issue_number_of_set_occurrences (c : Z) (e : ObservedBaseError) :
  issue_number_of (set_occurrences c e) = issue_number_of e.
Proof. now destruct e. Qed.

Lemma error_eqb_issue_number (a b : ObservedBaseError) :
  error_eqb a b = true -> issue_number_of a = issue_number_of b.
Proof.
  intros H. apply error_eqb_eq in H.
  rewrite <- (issue_number_of_set_occurrences 1 a).
  rewrite <- (issue_number_of_set_occurrences 1 b). now rewrite H.
Qed.

Lemma count_refs_cons (n : Z) (e : ObservedBaseError)
    (l : list ObservedBaseError) :
  count_refs n (e :: l)
  = ((if decide (issue_number_of e = Some n) then 1 else 0)
     + count_refs n l)%nat.
Proof.
  change (e :: l) with ([e] ++ l). now rewrite count_refs_app, count_refs_one.
Qed.

Lemma same_count_le_refs (r : ObservedBaseError) (n : Z)
    (l : list ObservedBaseError) :
  issue_number_of r = Some n ->
  (same_count r l <= Z.of_nat (count_refs n l))%Z.
Proof.
  intros Hr. induction l as [|x l IH]; [reflexivity|].
  rewrite same_count_cons, count_refs_cons.
  destruct (error_eqb r x) eqn:E.
  - apply error_eqb_issue_number in E. rewrite <- E, Hr.
    rewrite decide_True by done. lia.
  - destruct (decide _); lia.
Qed.

Lemma same_count_In (r : ObservedBaseError) (l : list ObservedBaseError) :
  In r l -> (1 <= same_count r l)%Z.
Proof.
  induction l as [|x l IH]; [done|]. rewrite same_count_cons.
  intros [->|H].
  - rewrite error_eqb_refl. unfold same_count. lia.
  - apply IH in H. destruct (error_eqb r x); lia.
Qed.

Section CountFacts.

Variable for_github_re : string -> string.
Variable lower : string -> string.
Variable step_key : string.
Variable buildkite_label : string.
Variable job : option string.
Variable artifacts : list Artifact.
Variable get_artifact_url : Artifact -> string.
Variable known_issues : list KnownGitHubIssue.

Local Abbreviation matches :=
  (entry_matches for_github_re lower step_key buildkite_label).
Local Abbreviation handle :=
  (handle_error for_github_re lower step_key buildkite_label known_issues).
Local Abbreviation classify :=
  (classify_error for_github_re lower step_key buildkite_label job artifacts
                  get_artifact_url known_issues).
Local Abbreviation run_errors :=
  (classify_errors for_github_re lower step_key buildkite_label job artifacts
                   get_artifact_url known_issues).
Local Abbreviation loop_from :=
  (classify_loop for_github_re lower step_key buildkite_label job artifacts
                 get_artifact_url known_issues).

(** An error that no entry matches is always appended to the unknown
    errors. *)
Lemma handle_error_unmatched (msg : string) (d : option string)
    (loc : string) (url : option string) (st : classify_state) :
  Forall (fun i => matches false (search_string_of msg d) i = false)
         known_issues ->
  Forall (fun i => matches true (search_string_of msg d) i = false)
         known_issues ->
  handle msg d loc url st
  = ClassifyState (unknown_errors st ++ [unknown_record msg d loc url])
                  (known_errors st) (already_reported_issue_numbers st).
Proof.
  intros Hopen Hclosed. unfold handle_error.
  rewrite issue_loop_none by exact Hopen.
  now rewrite issue_loop_none by exact Hclosed.
Qed.

(** X10. The same log error, a match that is well-formed UTF-8, found
    [n + 1] times and matched by no entry of the registry, is never
    deduplicated by the classifier: the run returns with [n + 1]
    unknown-error records, which the aggregator then turns into one record
    with occurrence count [n + 1]. *)
Theorem repeated_unknown_error_is_counted (e : ErrorLog) (n : nat) :
  utf8_valid (match_ e) = true ->
  Forall (fun i => matches false (match_ e) i = false) known_issues ->
  Forall (fun i => matches true (match_ e) i = false) known_issues ->
  let record :=
    unknown_record (match_ e) None (file e)
      (artifact_url job get_artifact_url (file e) artifacts) in
  run_errors [] (repeat (OfErrorLog e) (S n))
  = Some (ClassifyState (repeat record (S n)) [] ∅) /\
  group_identical_errors (repeat record (S n))
  = [set_occurrences (Z.of_nat (S n)) record].
Proof.
  intros Hvalid Hopen Hclosed record.
  assert (Hfold : forall k st0,
            loop_from (repeat (OfErrorLog e) k) st0
            = Some (ClassifyState (unknown_errors st0 ++ repeat record k)
                                  (known_errors st0)
                                  (already_reported_issue_numbers st0))).
  { induction k as [|k IH]; intros st0.
    - simpl. rewrite app_nil_r. now destruct st0.
    - simpl repeat. cbn [classify_loop]. unfold classify_error, decode_utf8.
      rewrite Hvalid. rewrite handle_error_unmatched by assumption.
      rewrite IH. simpl. now rewrite <- app_assoc. }
  split.
  - unfold classify_errors. now rewrite Hfold.
  - rewrite group_identical_errors_first_seen.
    rewrite first_seen_repeat. cbn [map].
    now rewrite same_count_repeat.
Qed.

(** X11. In the report, a record that refers to an issue and stands in the
    known errors always has occurrence count 1: later errors matched by the
    same issue were dropped before the aggregator could count them. *)
Theorem known_issue_count_is_one
    (issues_with_invalid_regex : list ObservedBaseError)
    (errors : list LoggedError) (st : classify_state)
    (r : ObservedBaseError) (n : Z) :
  run_errors issues_with_invalid_regex errors = Some st ->
  In r (group_identical_errors (known_errors st)) ->
  issue_number_of r = Some n ->
  occurrences (base r) = 1%Z.
Proof.
  intros Hrun Hin Hn.
  assert (Hinv : reported_once issues_with_invalid_regex st).
  { eapply fold_classify_once; [apply reported_once_init|exact Hrun]. }
  destruct Hinv as (emitted & _ & Hcount).
  rewrite group_identical_errors_first_seen in Hin.
  apply in_map_iff in Hin as (k & <- & Hk).
  rewrite occurrences_set_occurrences.
  rewrite issue_number_of_set_occurrences in Hn.
  apply first_seen_In in Hk.
  pose proof (same_count_In _ _ Hk) as Hge.
  pose proof (same_count_le_refs k n (known_errors st) Hn) as Hle.
  destruct (Hcount n) as [H1 _]. lia.
Qed.

End CountFacts.

Lemma repeated_unknown_error_is_counted_witness :
  group_identical_errors
    (repeat (unknown_record "internal error: boom" None "services.log" None) 3)
  = [set_occurrences 3
       (unknown_record "internal error: boom" None "services.log" None)].
Proof.
  refine (proj2 (repeated_unknown_error_is_counted (fun s => s)
            ascii_lower "tests" "Tests" None [] (fun _ => "https://artifacts/")
            [] (mkErrorLog "internal error: boom" "services.log") 2 _ _ _));
    [reflexivity|constructor|constructor].
Defined.

Lemma known_issue_count_is_one_witness :
  occurrences
    (base (issue_record false (issue_matching_all "open" 2)
             "internal error: first" None "services.log" None)) = 1%Z.
Proof.
  assert (Hrun : classify_errors (fun s => s) ascii_lower "tests" "Tests" None
                   [] (fun _ => "https://artifacts/")
                   [issue_matching_all "open" 2] []
                   [OfErrorLog (mkErrorLog "internal error: first"
                                           "services.log");
                    OfErrorLog (mkErrorLog "internal error: second"
                                           "services.log")]
                 = Some (ClassifyState []
                           [issue_record false (issue_matching_all "open" 2)
                              "internal error: first" None "services.log" None]
                           ({[2%Z]} ∪ ∅)))
    by (vm_compute; reflexivity).
  refine (known_issue_count_is_one (fun s => s) ascii_lower "tests" "Tests"
            None [] (fun _ => "https://artifacts/")
            [issue_matching_all "open" 2] []
            [OfErrorLog (mkErrorLog "internal error: first" "services.log");
             OfErrorLog (mkErrorLog "internal error: second" "services.log")]
            _ _ 2 Hrun _ _).
  - vm_compute. now left.
  - reflexivity.
Defined.

Section CoverageFacts.

Variable for_github_re : string -> string.
Variable lower : string -> string.
Variable step_key : string.
Variable buildkite_label : string.
Variable job : option string.
Variable artifacts : list Artifact.
Variable get_artifact_url : Artifact -> string.

Local Abbreviation loop :=
  (issue_loop for_github_re lower step_key buildkite_label).
Local Abbreviation matches :=
  (entry_matches for_github_re lower step_key buildkite_label).
Local Abbreviation classify :=
  (classify_error for_github_re lower step_key buildkite_label job artifacts
                  get_artifact_url).
Local Abbreviation loop_from :=
  (classify_loop for_github_re lower step_key buildkite_label job artifacts
                 get_artifact_url).
Local Abbreviation others :=
  (List.filter (fun e => negb (is_coverage_failure e))).

(** A pass stops at the first entry that matches. *)
Lemma issue_loop_find (closed : bool) (s msg : string) (d : option string)
    (loc : string) (url : option string) (issues : list KnownGitHubIssue)
    (st : classify_state) :
  loop closed s msg d loc url issues st
  = match List.find (matches closed s) issues with
    | Some issue => (true, report_issue closed issue msg d loc url st)
    | None => (false, st)
    end.
Proof.
  induction issues as [|i issues IH]; [reflexivity|].
  simpl. unfold entry_matches at 1.
  destruct (regex_search i (for_github_re s)
            && String.eqb (info_state i) (wanted_state closed)); [|exact IH].
  destruct (out_of_scope lower step_key buildkite_label i); [exact IH|].
  reflexivity.
Qed.

(** The unknown errors and the reported numbers after an error depend on
    the unknown errors and the reported numbers before it, not on the known
    errors, which grow by the same number of records. *)
Lemma handle_error_congruence (known_issues : list KnownGitHubIssue)
    (msg : string) (d : option string) (loc : string) (url : option string)
    (st1 st2 : classify_state) :
  unknown_errors st1 = unknown_errors st2 ->
  already_reported_issue_numbers st1 = already_reported_issue_numbers st2 ->
  let h := handle_error for_github_re lower step_key buildkite_label
                        known_issues msg d loc url in
  unknown_errors (h st1) = unknown_errors (h st2) /\
  already_reported_issue_numbers (h st1)
  = already_reported_issue_numbers (h st2) /\
  (length (known_errors (h st1)) + length (known_errors st2)
   = length (known_errors (h st2)) + length (known_errors st1))%nat.
Proof.
  intros Hu Ha h. unfold h, handle_error.
  assert (Hrep : forall closed i,
            unknown_errors (report_issue closed i msg d loc url st1)
            = unknown_errors (report_issue closed i msg d loc url st2) /\
            already_reported_issue_numbers
              (report_issue closed i msg d loc url st1)
            = already_reported_issue_numbers
                (report_issue closed i msg d loc url st2) /\
            (length (known_errors (report_issue closed i msg d loc url st1))
             + length (known_errors st2)
             = length (known_errors (report_issue closed i msg d loc url st2))
               + length (known_errors st1))%nat).
  { intros closed i. unfold report_issue. rewrite Ha.
    destruct (decide _); [repeat split; try done; lia|]. simpl. rewrite Hu.
    destruct closed; repeat split; try done; rewrite ?length_app; simpl; lia. }
  rewrite !issue_loop_find.
  destruct (List.find (matches false (search_string_of msg d)) known_issues);
    [apply Hrep|].
  rewrite !issue_loop_find.
  destruct (List.find (matches true (search_string_of msg d)) known_issues);
    [apply Hrep|].
  simpl. rewrite Hu, Ha. repeat split; try done. lia.
Qed.

Lemma fold_classify_without_coverage (known_issues : list KnownGitHubIssue)
    (errors : list LoggedError) :
  forall st1 st2 st1',
    unknown_errors st1 = unknown_errors st2 ->
    already_reported_issue_numbers st1 = already_reported_issue_numbers st2 ->
    loop_from known_issues errors st1 = Some st1' ->
    exists st2',
      loop_from known_issues (others errors) st2 = Some st2' /\
      unknown_errors st1' = unknown_errors st2' /\
      already_reported_issue_numbers st1'
      = already_reported_issue_numbers st2' /\
      (length (known_errors st1') + length (known_errors st2)
       = length (known_errors st2') + length (known_errors st1)
         + length (List.filter is_coverage_failure errors))%nat.
Proof.
  induction errors as [|e errors IH]; intros st1 st2 st1' Hu Ha Hrun;
    cbn [classify_loop] in Hrun.
  - injection Hrun as <-. exists st2. simpl. repeat split; try done. lia.
  - destruct (classify known_issues st1 e) as [st1a|] eqn:Hstep;
      [|discriminate].
    destruct (is_coverage_failure e) eqn:Hcov.
    + assert (Hothers : others (e :: errors) = others errors)
        by (simpl; now rewrite Hcov).
      assert (Hcount : List.filter is_coverage_failure (e :: errors)
                       = e :: List.filter is_coverage_failure errors)
        by (simpl; now rewrite Hcov).
      assert (Hst : exists r,
                st1a = ClassifyState (unknown_errors st1)
                         (known_errors st1 ++ [r])
                         (already_reported_issue_numbers st1)).
      { destruct e as [e|e]; [discriminate|]. simpl in Hcov, Hstep.
        rewrite Hcov in Hstep. injection Hstep as <-. now eexists. }
      destruct Hst as [r ->].
      rewrite Hothers, Hcount.
      destruct (IH (ClassifyState (unknown_errors st1)
                                  (known_errors st1 ++ [r])
                                  (already_reported_issue_numbers st1))
                   st2 st1' Hu Ha Hrun) as (st2' & Hrun2 & H1 & H2 & H3).
      exists st2'. repeat split; try done.
      simpl in H3. rewrite length_app in H3. simpl in H3. simpl length. lia.
    + assert (Hothers : others (e :: errors) = e :: others errors)
        by (simpl; now rewrite Hcov).
      assert (Hcount : List.filter is_coverage_failure (e :: errors)
                       = List.filter is_coverage_failure errors)
        by (simpl; now rewrite Hcov).
      assert (Hst : exists msg d loc url,
                forall st,
                  classify known_issues st e
                  = Some (handle_error for_github_re lower step_key
                            buildkite_label known_issues msg d loc url st)).
      { destruct e as [e|e]; simpl in *.
        - unfold decode_utf8 in *.
          destruct (utf8_valid (match_ e)); [|discriminate].
          now eexists _, _, _, _.
        - rewrite Hcov. now eexists _, _, _, _. }
      destruct Hst as (msg & d & loc & url & Hst).
      rewrite Hst in Hstep. injection Hstep as <-.
      rewrite Hothers, Hcount. cbn [classify_loop]. rewrite Hst.
      destruct (handle_error_congruence known_issues msg d loc url st1 st2
                  Hu Ha) as (Hu' & Ha' & Hk').
      destruct (IH _ _ st1' Hu' Ha' Hrun) as (st2' & Hrun2 & H1 & H2 & H3).
      exists st2'. repeat split; try done. lia.
Qed.

(** X12. Failures of a coverage run (junit errors whose text holds [in
    Code Coverage] or whose message holds [covered]) do not take part in the
    classification: when a run returns, the run without them returns too,
    with the same unknown errors and the same reported issue numbers; each
    of them only adds one record to the known errors. *)
Theorem coverage_failures_bypass_classification
    (known_issues : list KnownGitHubIssue)
    (issues_with_invalid_regex : list ObservedBaseError)
    (errors : list LoggedError) (st : classify_state) :
  let run_errors :=
    classify_errors for_github_re lower step_key buildkite_label job
      artifacts get_artifact_url known_issues issues_with_invalid_regex in
  run_errors errors = Some st ->
  exists st',
    run_errors (others errors) = Some st' /\
    unknown_errors st = unknown_errors st' /\
    already_reported_issue_numbers st = already_reported_issue_numbers st' /\
    length (known_errors st)
    = (length (known_errors st')
       + length (List.filter is_coverage_failure errors))%nat.
Proof.
  intros run_errors Hrun. unfold run_errors, classify_errors in *.
  destruct (fold_classify_without_coverage known_issues errors
              (ClassifyState issues_with_invalid_regex [] ∅)
              (ClassifyState issues_with_invalid_regex [] ∅) st
              eq_refl eq_refl Hrun) as (st' & Hrun' & H1 & H2 & H3).
  exists st'. repeat split; try done. simpl in H3. lia.
Qed.

End CoverageFacts.

Lemma coverage_failures_bypass_classification_witness :
  let errors :=
    [OfJunitError (mkJunitError "suite" "case" "not covered" "lines");
     OfErrorLog (mkErrorLog "internal error: boom" "services.log")] in
  exists st',
    classify_errors (fun s => s) ascii_lower "tests" "Tests" None []
      (fun _ => "https://artifacts/") [] []
      (List.filter (fun e => negb (is_coverage_failure e)) errors) = Some st' /\
    unknown_errors st'
    = [unknown_record "internal error: boom" None "services.log" None].
Proof.
  intros errors.
  assert (Hrun : classify_errors (fun s => s) ascii_lower "tests" "Tests" None
                   [] (fun _ => "https://artifacts/") [] [] errors
                 = Some (ClassifyState
                           [unknown_record "internal error: boom" None
                                           "services.log" None]
                           [FailureInCoverageRun
                              (mkObservedError "FAILURE_IN_COVERAGE_MODE" 1
                                 (Some (coverage_message
                                          (mkJunitError "suite" "case"
                                             "not covered" "lines")))
                                 None "Failure" "case" None 10000 10000)]
                           ∅))
    by (vm_compute; reflexivity).
  destruct (coverage_failures_bypass_classification (fun s => s) ascii_lower
              "tests" "Tests" None [] (fun _ => "https://artifacts/") [] []
              errors _ Hrun) as (st' & Hrun' & Hu & _).
  exists st'. split; [exact Hrun'|]. now rewrite <- Hu.
Defined.

(** ** The exit code *)

Section ExitCodeFacts.

Variable for_github_re : string -> string.
Variable lower : string -> string.
Variable step_key : string.
Variable buildkite_label : string.
Variable job : option string.
Variable artifacts : list Artifact.
Variable get_artifact_url : Artifact -> string.
Variable known_issues : list KnownGitHubIssue.

Local Abbreviation matches :=
  (entry_matches for_github_re lower step_key buildkite_label).
Local Abbreviation handle :=
  (handle_error for_github_re lower step_key buildkite_label known_issues).
Local Abbreviation classify :=
  (classify_error for_github_re lower step_key buildkite_label job artifacts
                  get_artifact_url known_issues).
Local Abbreviation loop_from :=
  (classify_loop for_github_re lower step_key buildkite_label job artifacts
                 get_artifact_url known_issues).
Local Abbreviation exit_code :=
  (annotate_logged_errors for_github_re lower step_key buildkite_label job
                          artifacts get_artifact_url known_issues).
Local Abbreviation others :=
  (List.filter (fun e => negb (is_coverage_failure e))).





End ExitCodeFacts.



(** ** The aggregator: counts *)

(** In a list without equal records, a record that is there is there
    once. *)
Lemma same_count_distinct (e : ObservedBaseError)
    (ks : list ObservedBaseError) :
  distinct ks ->
  existsb (fun x => error_eqb x e) ks = true ->
  same_count e ks = 1%Z.
Proof.
  induction ks as [|k ks IH]; simpl; [discriminate|].
  intros [Hk Hks] Hex. rewrite same_count_cons, (error_eqb_sym e k).
  destruct (error_eqb k e) eqn:Hke.
  - rewrite same_count_absent; [reflexivity|].
    eapply Forall_impl; [exact Hk|]. intros x Hx. simpl in *.
    now rewrite (error_eqb_trans _ _ _ Hke).
  - simpl in Hex. now rewrite IH.
Qed.

(** The counts of the records of [ks] in [l ++ [e]], summed. *)
Lemma sum_same_count_snoc (l ks : list ObservedBaseError)
    (e : ObservedBaseError) :
  sum_occurrences
    (map (fun k => set_occurrences (same_count k (l ++ [e])) k) ks)
  = (sum_occurrences (map (fun k => set_occurrences (same_count k l) k) ks)
     + same_count e ks)%Z.
Proof.
  induction ks as [|k ks IH]; [reflexivity|].
  cbn [map]. unfold sum_occurrences in *. cbn [fold_right].
  rewrite IH, !occurrences_set_occurrences, same_count_snoc, same_count_cons.
  rewrite (error_eqb_sym e k). lia.
Qed.

Lemma sum_occurrences_app (l1 l2 : list ObservedBaseError) :
  sum_occurrences (l1 ++ l2) = (sum_occurrences l1 + sum_occurrences l2)%Z.
Proof.
  unfold sum_occurrences. induction l1 as [|a l1 IH]; simpl; [lia|].
  rewrite IH. lia.
Qed.

Lemma sum_first_seen (l : list ObservedBaseError) :
  sum_occurrences
    (map (fun k => set_occurrences (same_count k l) k) (first_seen l))
  = Z.of_nat (length l).
Proof.
  induction l as [|e l IH] using rev_ind; [reflexivity|].
  rewrite first_seen_snoc.
  destruct (existsb (fun x => error_eqb x e) l) eqn:Hex.
  - rewrite sum_same_count_snoc, IH.
    rewrite same_count_distinct;
      [|apply first_seen_distinct|now rewrite first_seen_exists].
    rewrite length_app. simpl. lia.
  - rewrite map_app, sum_occurrences_app, sum_same_count_snoc, IH.
    rewrite same_count_absent.
    2:{ pose proof (existsb_false_Forall e (first_seen l)) as Hall.
        rewrite first_seen_exists in Hall. specialize (Hall Hex).
        eapply Forall_impl; [exact Hall|].
        intros x Hx. simpl in Hx. now rewrite error_eqb_sym. }
    assert (Hone : forall r, sum_occurrences [r] = occurrences (base r))
      by (intros r; unfold sum_occurrences; simpl; lia).
    cbn [map]. rewrite Hone.
    rewrite occurrences_set_occurrences, same_count_snoc, error_eqb_refl.
    rewrite same_count_absent.
    2:{ pose proof (existsb_false_Forall e l Hex) as Hall.
        eapply Forall_impl; [exact Hall|].
        intros x Hx. simpl in Hx. now rewrite error_eqb_sym. }
    rewrite length_app. simpl. lia.
Qed.

(** X15. Grouping loses no record: the occurrence counts of the grouped
    records add up to the number of records given, whatever counts these
    carried. *)
Theorem grouping_counts_every_record (errors : list ObservedBaseError) :
  sum_occurrences (group_identical_errors errors) = Z.of_nat (length errors).
Proof.
  rewrite group_identical_errors_first_seen. apply sum_first_seen.
Qed.

(** Grouping keeps a record of a list that has one. *)
Lemma group_identical_errors_nil (errors : list ObservedBaseError) :
  group_identical_errors errors = [] <-> errors = [].
Proof.
  rewrite group_identical_errors_first_seen. split.
  - destruct errors as [|e errors]; [done|]. discriminate.
  - now intros ->.
Qed.

(** X16. What [annotate_errors] decides: the annotation has the style
    [error] exactly when there are unknown errors, an annotation of that
    style is always a failure, and one of style [info] is a failure exactly
    when the command of the build step did not exit with status 0. *)
Theorem annotation_style_and_failure (successful_buildkite_status : bool)
    (unknown known : list ObservedBaseError) :
  (annotation_style unknown = "error" <-> unknown <> []) /\
  (annotation_style unknown = "info" <-> unknown = []) /\
  is_failure successful_buildkite_status unknown known
  = (if String.eqb (annotation_style unknown) "error" then true
     else negb successful_buildkite_status).
Proof.
  unfold is_failure.
  destruct unknown as [|e unknown].
  - simpl. repeat split; try done.
  - assert (Hg : group_identical_errors (e :: unknown) <> [])
      by (rewrite group_identical_errors_nil; discriminate).
    destruct (group_identical_errors (e :: unknown)) as [|g gs]; [done|].
    simpl. repeat split; try done.
Qed.

(** ** Cropping and fencing text *)

Lemma slice_to_nonneg (n : Z) (text : Text.str) :
  (0 <= n)%Z -> Text.slice_to n text = take (Z.to_nat n) text.
Proof.
  intros Hn. unfold Text.slice_to.
  destruct (0 <=? n)%Z eqn:H; [reflexivity|]. lia.
Qed.

Lemma length_chars (s : string) : length (Text.chars s) = String.length s.
Proof.
  unfold Text.chars. rewrite length_map.
  induction s as [|a s IH]; simpl; [reflexivity|]. now rewrite IH.
Qed.

Lemma length_crop_text (text : Text.str) (max_length : Z) :
  (0 <= max_length)%Z ->
  (Z.of_nat (length (Text.crop_text (Some text) max_length))
   <= max_length + 6)%Z.
Proof.
  intros Hmax. unfold Text.crop_text.
  destruct (max_length <? Z.of_nat (length text))%Z eqn:Hlong.
  - rewrite slice_to_nonneg by exact Hmax.
    rewrite length_app, length_take, length_chars. simpl. lia.
  - apply Z.ltb_ge in Hlong. lia.
Qed.

(** X17. Cropping to a non-negative length: a text within the limit is
    returned as it is; the result is never longer than the limit plus the
    six characters of the mark; it agrees with the text on the first
    [max_length] characters; and cropping it again changes nothing. *)
Theorem crop_text_bounds (text : Text.str) (max_length : Z) :
  (0 <= max_length)%Z ->
  let cropped := Text.crop_text (Some text) max_length in
  ((Z.of_nat (length text) <= max_length)%Z -> cropped = text) /\
  (Z.of_nat (length cropped) <= max_length + 6)%Z /\
  take (Z.to_nat max_length) cropped = take (Z.to_nat max_length) text /\
  Text.crop_text (Some cropped) max_length = cropped.
Proof.
  intros Hmax cropped. unfold cropped, Text.crop_text.
  destruct (max_length <? Z.of_nat (length text))%Z eqn:Hlong.
  - apply Z.ltb_lt in Hlong. rewrite slice_to_nonneg by exact Hmax.
    assert (Hlen : length (take (Z.to_nat max_length) text)
                   = Z.to_nat max_length)
      by (rewrite length_take; lia).
    split; [lia|]. split; [|split].
    + rewrite length_app, Hlen, length_chars. simpl. lia.
    + rewrite take_app_le by lia. rewrite take_take. f_equal. lia.
    + assert (Hagain : (max_length
                        <? Z.of_nat (length (take (Z.to_nat max_length) text
                                             ++ Text.chars " [...]")))%Z
                       = true).
      { apply Z.ltb_lt. rewrite length_app, Hlen, length_chars. simpl. lia. }
      rewrite Hagain, slice_to_nonneg by exact Hmax.
      rewrite take_app_le by lia. rewrite take_take.
      do 2 f_equal. lia.
  - apply Z.ltb_ge in Hlong. split; [done|]. split; [lia|]. split; [done|].
    now rewrite (proj2 (Z.ltb_ge _ _) Hlong).
Qed.

Lemma crop_text_bounds_witness :
  Text.crop_text (Some (Text.crop_text (Some (Text.chars "segfault at 0")) 8)) 8
  = Text.crop_text (Some (Text.chars "segfault at 0")) 8.
Proof.
  refine (proj2 (proj2 (proj2
            (crop_text_bounds (Text.chars "segfault at 0") 8 _)))).
  lia.
Defined.

Lemma starts_with_length (old s : Text.str) :
  Text.starts_with old s = true -> (length old <= length s)%nat.
Proof.
  revert s. induction old as [|a old IH]; intros s H; simpl; [lia|].
  destruct s as [|b s]; [discriminate|]. simpl in H.
  apply andb_true_iff in H as [_ H]. apply IH in H. simpl. lia.
Qed.

(** A replacement at most twice as long as what it replaces at most doubles
    the text. *)
Lemma length_replace_from (old new : Text.str) :
  old <> [] -> (length new <= 2 * length old)%nat ->
  forall s skip,
    (length (Text.replace_from skip old new s) <= 2 * (length s - skip))%nat.
Proof.
  intros Hold Hnew.
  assert (0 < length old)%nat by (destruct old; [done|simpl; lia]).
  induction s as [|c s IH]; intros skip; [simpl; lia|].
  cbn [Text.replace_from]. destruct skip as [|k].
  - destruct (Text.starts_with old (c :: s)) eqn:Hs.
    + apply starts_with_length in Hs. simpl in Hs.
      rewrite length_app. specialize (IH (Nat.pred (length old))).
      simpl length. lia.
    + specialize (IH 0%nat). simpl length. lia.
  - specialize (IH k). simpl length. lia.
Qed.

Lemma length_sanitize_text (text : Text.str) (max_length : Z) :
  (0 <= max_length)%Z ->
  (Z.of_nat (length (Text.sanitize_text text max_length))
   <= 2 * (max_length + 6))%Z.
Proof.
  intros Hmax. unfold Text.sanitize_text, Text.replace.
  pose proof (length_replace_from Text.backticks Text.escaped_backticks)
    as Hrep.
  specialize (Hrep ltac:(discriminate) ltac:(vm_compute; lia)
                   (Text.crop_text (Some text) max_length) 0%nat).
  pose proof (length_crop_text text max_length Hmax) as Hcrop.
  lia.
Qed.

(** X18. A message that is absent or empty is formatted as the empty
    text.  Any other message is put between two fences of three backquotes,
    each on a line of its own, and for a non-negative limit the body between
    them is at most twice as long as the limit plus the mark, so that the
    formatted message has at most [2 * max_length + 20] characters. *)
Theorem format_error_message_fenced (error_message : option Text.str)
    (max_length : Z) :
  (0 <= max_length)%Z ->
  let out := Text.format_error_message error_message max_length in
  (out = [] <-> error_message = None \/ error_message = Some []) /\
  (forall text, error_message = Some text -> text <> [] ->
     exists body,
       out = Text.chars "```" ++ [10%N] ++ body ++ [10%N] ++ Text.chars "```" /\
       body = Text.sanitize_text text max_length /\
       (Z.of_nat (length body) <= 2 * (max_length + 6))%Z) /\
  (Z.of_nat (length out) <= 2 * max_length + 20)%Z.
Proof.
  intros Hmax out. unfold out, Text.format_error_message.
  destruct error_message as [[|c text]|].
  - split; [split; [now right|done]|].
    split; [intros t [= <-] Hne; done|simpl; lia].
  - split; [|split].
    + split; [discriminate|]. intros [H|H]; discriminate.
    + intros t [= <-] _. eexists. split; [reflexivity|].
      split; [reflexivity|]. now apply length_sanitize_text.
    + pose proof (length_sanitize_text (c :: text) max_length Hmax) as Hlen.
      rewrite !length_app, length_chars.
      change (String.length "```") with 3%nat. simpl length. lia.
  - split; [split; [now left|done]|].
    split; [intros t H; discriminate|simpl; lia].
Qed.

Lemma format_error_message_fenced_witness :
  (Z.of_nat (length (Text.format_error_message
                       (Some (Text.chars "see ``` in the log")) 10))
   <= 40)%Z.
Proof.
  refine (proj2 (proj2 (format_error_message_fenced
                          (Some (Text.chars "see ``` in the log")) 10 _))).
  lia.
Defined.

(** ** The annotation *)

Lemma starts_app (p q x : Text.str) :
  (exists r, x = (p ++ q) ++ r) -> exists rest, x = p ++ q ++ rest.
Proof. intros [r ->]. exists r. now rewrite <- app_assoc. Qed.

Lemma app_starts (p x y : Text.str) :
  (exists r, x = p ++ r) -> exists r, x ++ y = p ++ r.
Proof. intros [r ->]. exists (r ++ y). now rewrite <- app_assoc. Qed.

Section AnnotateFacts.

Variable successful_buildkite_status : bool.
Variable suite_name : Text.str.
Variable buildkite_job_id : Text.str.
Variable BuildStepOutcome : Type.
Variable web_url_to_job : BuildStepOutcome -> Text.str.
Variable passed : BuildStepOutcome -> bool.
Variable error_to_markdown : ObservedBaseError -> Text.str.
Variable occurrences_to_markdown : ObservedBaseError -> Text.str.

Local Abbreviation annotate :=
  (annotate_errors successful_buildkite_status suite_name buildkite_job_id
     BuildStepOutcome web_url_to_job passed error_to_markdown
     occurrences_to_markdown).

(** X19. With at least one record the assertion of [annotate_errors]
    holds and an annotation is published.  Without unknown errors its style
    is [info] and the whole markdown is one collapsed [details] element,
    whose summary starts with the link to the job, the outcome of the build
    step and the words [with known error logs].  With an unknown error the
    style is [error] and the markdown is not wrapped: it starts with the
    link to the job and the word [failed], whatever the status of the build
    step was. *)
Theorem known_only_annotation_is_collapsed
    (unknown known : list ObservedBaseError)
    (history : option (Markdown.BuildHistoryOnMain BuildStepOutcome)) :
  unknown <> [] \/ known <> [] ->
  let link :=
    Text.chars "<a href=" ++ [34%N] ++ Text.chars "#" ++ buildkite_job_id
    ++ [34%N] ++ Text.chars ">" ++ suite_name ++ Text.chars "</a>" in
  exists style markdown,
    annotate unknown known history = Some (style, markdown) /\
    (unknown = [] ->
       style = "info" /\
       exists rest,
         markdown
         = Text.chars "<details><summary>" ++ link
           ++ (if successful_buildkite_status then Text.chars " succeeded"
               else Text.chars " failed")
           ++ Text.chars " with known error logs" ++ rest
           ++ [10%N] ++ Text.chars "</details>") /\
    (unknown <> [] ->
       style = "error" /\
       exists rest, markdown = link ++ Text.chars " failed" ++ rest).
Proof.
  intros Hsome link. unfold annotate_errors.
  destruct unknown as [|u us].
  - destruct known as [|k ks]; [now destruct Hsome|]. clear Hsome.
    eexists _, _. split; [reflexivity|]. split; [|done].
    intros _. split; [reflexivity|].
    unfold Markdown.Annotation_to_markdown, is_failure. cbn [Markdown.unknown_errors
      Markdown.known_errors Markdown.is_failure Markdown.build_history_on_main].
    change (group_identical_errors []) with (@nil ObservedBaseError).
    assert (Hg : group_identical_errors (k :: ks) <> [])
      by (rewrite group_identical_errors_nil; discriminate).
    destruct (group_identical_errors (k :: ks)) as [|g gs]; [done|].
    cbn [length Nat.eqb Nat.ltb Nat.leb andb orb].
    unfold Markdown.build_link. cbn [Markdown.buildkite_job_id
      Markdown.suite_name]. unfold link, Markdown.quote, Markdown.newline.
    destruct history as [h|].
    + exists (Text.chars ", "
              ++ Markdown.BuildHistoryOnMain_to_markdown BuildStepOutcome
                   web_url_to_job passed h
              ++ Text.chars "</summary>" ++ [10%N] ++ [10%N]
              ++ Markdown.error_lines error_to_markdown
                   occurrences_to_markdown (g :: gs)).
      destruct successful_buildkite_status; cbn [negb];
        rewrite <- ?app_assoc; reflexivity.
    + exists (Text.chars "</summary>" ++ [10%N] ++ [10%N]
              ++ Markdown.error_lines error_to_markdown
                   occurrences_to_markdown (g :: gs)).
      destruct successful_buildkite_status; cbn [negb];
        rewrite <- ?app_assoc; reflexivity.
  - clear Hsome. eexists _, _. split; [reflexivity|]. split; [done|].
    intros _. split; [reflexivity|].
    unfold Markdown.Annotation_to_markdown, is_failure. cbn [Markdown.unknown_errors
      Markdown.known_errors Markdown.is_failure Markdown.build_history_on_main].
    assert (Hg : group_identical_errors (u :: us) <> [])
      by (rewrite group_identical_errors_nil; discriminate).
    destruct (group_identical_errors (u :: us)) as [|g gs]; [done|].
    cbn [length Nat.eqb Nat.ltb Nat.leb andb orb].
    match goal with
    | |- context [?t ++ Text.chars " " ++ Text.chars "failed"] =>
        remember (t ++ Text.chars " " ++ Text.chars "failed") as title
          eqn:Htitle
    end.
    assert (Hstart : exists r, title = (link ++ Text.chars " failed") ++ r).
    { exists []. subst title. unfold Markdown.build_link.
      cbn [Markdown.buildkite_job_id Markdown.suite_name].
      unfold link, Markdown.quote.
      rewrite app_nil_r, <- ?app_assoc. reflexivity. }
    clear Htitle. apply starts_app.
    destruct history as [h|];
      destruct (group_identical_errors known) as [|k ks]; cbn [length];
      repeat apply app_starts; exact Hstart.
Qed.

End AnnotateFacts.

Lemma known_only_annotation_is_collapsed_witness :
  exists style markdown,
    annotate_errors true (Text.chars "testdrive") (Text.chars "0190-ab") unit
      (fun _ => Text.chars "https://buildkite/") (fun _ => true)
      (fun _ => Text.chars "Known issue") (fun _ => [])
      [] [unknown_record "internal error: boom" None "services.log" None] None
    = Some (style, markdown) /\ style = "info".
Proof.
  assert (Hsome : @nil ObservedBaseError <> [] \/
                  [unknown_record "internal error: boom" None "services.log"
                                  None] <> [])
    by (right; discriminate).
  destruct (known_only_annotation_is_collapsed true (Text.chars "testdrive")
              (Text.chars "0190-ab") unit
              (fun _ => Text.chars "https://buildkite/") (fun _ => true)
              (fun _ => Text.chars "Known issue") (fun _ => [])
              [] [unknown_record "internal error: boom" None "services.log" None]
              None Hsome)
    as (style & markdown & Hrun & Hinfo & _).
  exists style, markdown. split; [exact Hrun|]. exact (proj1 (Hinfo eq_refl)).
Defined.

(** ** The aggregator on the lists of a run *)

Lemma spec_key_set_occurrences (c : Z) (e : ObservedBaseError) :
  spec_key (set_occurrences c e) = spec_key e.
Proof. now destruct e as [[] ? ?|[]|[]]. Qed.

Lemma error_eqb_spec_key (a b : ObservedBaseError) :
  error_eqb a b = true -> spec_key a = spec_key b.
Proof.
  intros H. apply error_eqb_eq in H.
  rewrite <- (spec_key_set_occurrences 1 a), <- (spec_key_set_occurrences 1 b).
  now rewrite H.
Qed.

Lemma filter_ext_In (P Q : ObservedBaseError -> Prop)
    `{forall x, Decision (P x)} `{forall x, Decision (Q x)}
    (l : list ObservedBaseError) :
  (forall x, In x l -> (P x <-> Q x)) -> filter P l = filter Q l.
Proof.
  induction l as [|a l IH]; intros Hext; [reflexivity|].
  rewrite !filter_cons.
  assert (Ha : P a <-> Q a) by (apply Hext; now left).
  rewrite IH by (intros x Hx; apply Hext; now right).
  destruct (decide (P a)), (decide (Q a)); tauto.
Qed.

Lemma first_by_key_In (l : list ObservedBaseError) (k : ObservedBaseError) :
  In k (first_by_key l) -> In k l.
Proof.
  induction l as [|a l IH]; [done|]. simpl. intros [->|H]; [now left|].
  right. apply IH. apply list_elem_of_In in H.
  apply list_elem_of_filter in H as [_ H]. now apply list_elem_of_In.
Qed.

Lemma first_by_key_covers (l : list ObservedBaseError)
    (e : ObservedBaseError) :
  In e l -> exists k, In k (first_by_key l) /\ spec_key k = spec_key e.
Proof.
  induction l as [|a l IH]; [done|]. intros [->|He].
  - exists e. split; [now left|reflexivity].
  - destruct (IH He) as (k & Hk & Hke).
    destruct (decide (spec_key k = spec_key a)) as [Hka|Hka].
    + exists a. split; [now left|congruence].
    + exists k. split; [|exact Hke]. right.
      apply list_elem_of_In, list_elem_of_filter.
      split; [exact Hka|now apply list_elem_of_In].
Qed.

Lemma key_faithful_tail (a : ObservedBaseError) (l : list ObservedBaseError) :
  key_faithful (a :: l) -> key_faithful l.
Proof. intros H x y Hx Hy. apply H; now right. Qed.

Lemma key_faithful_first_seen (l : list ObservedBaseError) :
  key_faithful l -> first_seen l = first_by_key l.
Proof.
  induction l as [|a l IH]; intros Hf; [reflexivity|].
  simpl. rewrite IH by exact (key_faithful_tail a l Hf). f_equal.
  apply filter_ext_In. intros x Hx. apply first_by_key_In in Hx. split.
  - intros Hne Hkey.
    rewrite (Hf a x) in Hne; [discriminate|now left|now right|congruence].
  - intros Hkey. destruct (error_eqb a x) eqn:E; [|reflexivity].
    apply error_eqb_spec_key in E. congruence.
Qed.

Lemma key_faithful_same_count (l : list ObservedBaseError)
    (e : ObservedBaseError) :
  key_faithful l -> In e l -> same_count e l = key_count e l.
Proof.
  intros Hf He. unfold same_count, key_count. do 2 f_equal.
  apply filter_ext_In. intros x Hx. split.
  - intros E. apply error_eqb_spec_key in E. congruence.
  - intros Hkey. apply Hf; [exact He|exact Hx|congruence].
Qed.

Lemma group_identical_errors_by_key (l : list ObservedBaseError) :
  key_faithful l ->
  group_identical_errors l
  = map (fun e => set_occurrences (key_count e l) e) (first_by_key l).
Proof.
  intros Hf. rewrite group_identical_errors_first_seen.
  rewrite (key_faithful_first_seen l Hf).
  apply map_ext_in. intros k Hk. apply first_by_key_In in Hk.
  now rewrite (key_faithful_same_count l k Hf Hk).
Qed.

Lemma NoDup_map_filter (P : ObservedBaseError -> Prop)
    `{forall x, Decision (P x)} (l : list ObservedBaseError) :
  List.NoDup (map spec_key l) -> List.NoDup (map spec_key (filter P l)).
Proof.
  induction l as [|a l IH]; [done|]. simpl. intros Hnd.
  apply List.NoDup_cons_iff in Hnd as [Ha Hnd].
  rewrite filter_cons. destruct (decide (P a)); [|now apply IH].
  simpl. apply List.NoDup_cons_iff. split; [|now apply IH].
  intros Hin. apply Ha. apply in_map_iff in Hin as (x & Hx & Hin).
  apply in_map_iff. exists x. split; [exact Hx|].
  apply list_elem_of_In in Hin. apply list_elem_of_filter in Hin as [_ Hin].
  now apply list_elem_of_In.
Qed.

Lemma first_by_key_NoDup (l : list ObservedBaseError) :
  List.NoDup (map spec_key (first_by_key l)).
Proof.
  induction l as [|a l IH]; simpl; [constructor|].
  apply List.NoDup_cons_iff. split; [|now apply NoDup_map_filter].
  intros Hin. apply in_map_iff in Hin as (x & Hx & Hin).
  apply list_elem_of_In in Hin. now apply list_elem_of_filter in Hin as [Hne _].
Qed.

Section KeyFacts.

Variable for_github_re : string -> string.
Variable lower : string -> string.
Variable step_key : string.
Variable buildkite_label : string.
Variable job : option string.
Variable artifacts : list Artifact.
Variable get_artifact_url : Artifact -> string.
Variable known_issues : list KnownGitHubIssue.

Local Abbreviation handle :=
  (handle_error for_github_re lower step_key buildkite_label known_issues).
Local Abbreviation classify :=
  (classify_error for_github_re lower step_key buildkite_label job artifacts
                  get_artifact_url known_issues).
Local Abbreviation loop_from :=
  (classify_loop for_github_re lower step_key buildkite_label job artifacts
                 get_artifact_url known_issues).
Local Abbreviation made :=
  (made_by_classifier for_github_re lower step_key buildkite_label job
                      artifacts get_artifact_url known_issues).
Local Abbreviation url_of := (url_for job artifacts get_artifact_url).

(** Two records the loop makes that have the same key are the same. *)
Lemma made_key (a b : ObservedBaseError) :
  made a -> made b -> spec_key a = spec_key b -> a = b.
Proof.
  intros [(m & loc & ->)|[(msg & d & loc & ->)
                         |(closed & issue & msg & d & loc & Hfind & ->)]]
         [(m' & loc' & ->)|[(msg' & d' & loc' & ->)
                           |(closed' & issue' & msg' & d' & loc' & Hfind' & ->)]]
         Hkey;
    unfold unknown_record, issue_record in *;
    cbv [spec_key class_name base internal_error_type error_type error_message
         error_details location] in Hkey;
    try discriminate.
  - now simplify_eq.
  - now simplify_eq.
  - destruct closed, closed'; try discriminate; simplify_eq; reflexivity.
Qed.

Lemma made_own_kind (r : ObservedBaseError) :
  made r -> In (internal_error_type (base r)) own_kinds.
Proof.
  intros [(m & loc & ->)|[(msg & d & loc & ->)
                         |(closed & issue & msg & d & loc & _ & ->)]];
    simpl; [|tauto|destruct closed; tauto]. tauto.
Qed.

(** What one error adds to the two lists is made as above. *)
Lemma handle_error_made (msg : string) (d : option string) (loc : string)
    (st : classify_state) :
  exists ku kk,
    unknown_errors (handle msg d loc (url_of d loc) st)
    = unknown_errors st ++ ku /\
    known_errors (handle msg d loc (url_of d loc) st) = known_errors st ++ kk /\
    Forall made ku /\ Forall made kk.
Proof.
  assert (Hrep : forall closed issue,
            List.find (entry_matches for_github_re lower step_key
                         buildkite_label closed (search_string_of msg d))
                      known_issues = Some issue ->
            exists ku kk,
              unknown_errors (report_issue closed issue msg d loc
                                           (url_of d loc) st)
              = unknown_errors st ++ ku /\
              known_errors (report_issue closed issue msg d loc
                                         (url_of d loc) st)
              = known_errors st ++ kk /\
              Forall made ku /\ Forall made kk).
  { intros closed issue Hfind. unfold report_issue.
    destruct (decide _).
    - exists [], []. rewrite !app_nil_r. repeat split; constructor.
    - assert (Hmade : made (issue_record closed issue msg d loc (url_of d loc))).
      { right. right. now exists closed, issue, msg, d, loc. }
      destruct closed; simpl.
      + eexists [_], []. rewrite app_nil_r.
        repeat split; [|constructor]. constructor; [exact Hmade|constructor].
      + eexists [], [_]. rewrite app_nil_r.
        repeat split; [constructor|]. constructor; [exact Hmade|constructor]. }
  unfold handle_error.
  rewrite !(issue_loop_find for_github_re lower step_key buildkite_label).
  destruct (List.find (entry_matches for_github_re lower step_key
                         buildkite_label false (search_string_of msg d))
                      known_issues) as [issue|] eqn:Hopen;
    [now apply Hrep|].
  rewrite !(issue_loop_find for_github_re lower step_key buildkite_label).
  destruct (List.find (entry_matches for_github_re lower step_key
                         buildkite_label true (search_string_of msg d))
                      known_issues) as [issue|] eqn:Hclosed;
    [now apply Hrep|].
  eexists [_], []. simpl. rewrite app_nil_r.
  repeat split; [|constructor]. constructor; [|constructor].
  right. left. now exists msg, d, loc.
Qed.

Lemma classify_error_made (st st' : classify_state) (error : LoggedError) :
  classify st error = Some st' ->
  exists ku kk,
    unknown_errors st' = unknown_errors st ++ ku /\
    known_errors st' = known_errors st ++ kk /\
    Forall made ku /\ Forall made kk.
Proof.
  intros Hstep. destruct error as [e|e]; simpl in Hstep.
  - unfold decode_utf8 in Hstep.
    destruct (utf8_valid (match_ e)); [|discriminate].
    injection Hstep as <-. apply (handle_error_made (match_ e) None).
  - destruct (contains "in Code Coverage" (text e)
              || contains "covered" (message e)); injection Hstep as <-.
    + eexists [], [_]. simpl. rewrite app_nil_r.
      repeat split; [constructor|]. constructor; [|constructor].
      left. now eexists _, _.
    + apply (handle_error_made (message e) (Some (text e))).
Qed.

Lemma classify_loop_made (errors : list LoggedError) :
  forall st st',
    loop_from errors st = Some st' ->
    exists ku kk,
      unknown_errors st' = unknown_errors st ++ ku /\
      known_errors st' = known_errors st ++ kk /\
      Forall made ku /\ Forall made kk.
Proof.
  induction errors as [|e errors IH]; intros st st' Hrun;
    cbn [classify_loop] in Hrun.
  - injection Hrun as <-. exists [], []. rewrite !app_nil_r.
    repeat split; constructor.
  - destruct (classify st e) as [st1|] eqn:Hstep; [|discriminate].
    destruct (classify_error_made st st1 e Hstep)
      as (ku & kk & Hu & Hk & Hmu & Hmk).
    destruct (IH st1 st' Hrun) as (ku' & kk' & Hu' & Hk' & Hmu' & Hmk').
    exists (ku ++ ku'), (kk ++ kk').
    rewrite Hu', Hk', Hu, Hk, !app_assoc.
    repeat split; now apply Forall_app.
Qed.

(** In a list of foreign records and records the loop makes, the key
    decides equality as soon as it does among the foreign ones. *)
Lemma key_faithful_made (invalid made_records : list ObservedBaseError) :
  key_faithful invalid -> Forall foreign invalid ->
  Forall made made_records ->
  key_faithful (invalid ++ made_records).
Proof.
  intros Hf Hforeign Hmade a b Ha Hb Hkey.
  rewrite Forall_forall in Hforeign, Hmade.
  assert (Hkind : internal_error_type (base a) = internal_error_type (base b)).
  { unfold spec_key in Hkey. now simplify_eq. }
  apply in_app_or in Ha as [Ha|Ha]; apply in_app_or in Hb as [Hb|Hb].
  - now apply Hf.
  - exfalso. apply (Hforeign a); [now apply list_elem_of_In|].
    rewrite Hkind. apply made_own_kind, Hmade. now apply list_elem_of_In.
  - exfalso. apply (Hforeign b); [now apply list_elem_of_In|].
    rewrite <- Hkind. apply made_own_kind, Hmade. now apply list_elem_of_In.
  - rewrite (made_key a b); [apply error_eqb_refl| | |exact Hkey];
      apply Hmade; now apply list_elem_of_In.
Qed.

(** C9.  In each of the two lists a run has filled, grouping collapses the
    records with the same key (kind, message, details, location; the
    occurrence count is no part of it) into one record, the first seen,
    whose occurrence count is the number of records with that key; the
    surviving records stand in the order in which their keys first appear,
    no two of them have the same key, and every record of the list has its
    key among them.  The records for registry entries with an invalid
    pattern, which another module makes and with which the unknown errors
    start, are taken to be of a kind of their own and to be equal when
    their keys are. *)
Theorem grouping_collapses_equal_records
    (issues_with_invalid_regex : list ObservedBaseError)
    (errors : list LoggedError) (st : classify_state)
    (l : list ObservedBaseError) :
  key_faithful issues_with_invalid_regex ->
  Forall foreign issues_with_invalid_regex ->
  classify_errors for_github_re lower step_key buildkite_label job artifacts
    get_artifact_url known_issues issues_with_invalid_regex errors = Some st ->
  l = unknown_errors st \/ l = known_errors st ->
  let grouped := group_identical_errors l in
  grouped
    = map (fun e => set_occurrences (key_count e l) e) (first_by_key l) /\
  List.NoDup (map spec_key grouped) /\
  forall e, In e l ->
    exists r, In r grouped /\ spec_key r = spec_key e /\
              occurrences (base r) = key_count e l.
Proof.
  intros Hf Hforeign Hrun Hl grouped.
  destruct (classify_loop_made errors _ st Hrun)
    as (ku & kk & Hu & Hk & Hmu & Hmk). simpl in Hu, Hk.
  assert (Hfl : key_faithful l).
  { destruct Hl as [-> | ->].
    - rewrite Hu. now apply key_faithful_made.
    - rewrite Hk. apply (key_faithful_made [] kk); [|constructor|exact Hmk].
      intros a b []. }
  assert (Hgrouped : grouped
            = map (fun e => set_occurrences (key_count e l) e)
                  (first_by_key l))
    by now apply group_identical_errors_by_key.
  split; [exact Hgrouped|]. rewrite Hgrouped. split.
  - rewrite map_map.
    rewrite (map_ext _ spec_key)
      by (intros x; apply spec_key_set_occurrences).
    apply first_by_key_NoDup.
  - intros e He. destruct (first_by_key_covers l e He) as (k & Hk' & Hke).
    exists (set_occurrences (key_count k l) k). split; [|split].
    + apply in_map_iff. now exists k.
    + now rewrite spec_key_set_occurrences.
    + rewrite occurrences_set_occurrences. unfold key_count. now rewrite Hke.
Qed.

End KeyFacts.

Lemma grouping_collapses_equal_records_witness :
  let boom := unknown_record "internal error: boom" None "services.log" None in
  let oom := unknown_record "out of memory" None "services.log" None in
  group_identical_errors [boom; oom; boom]
  = [set_occurrences 2 boom; set_occurrences 1 oom].
Proof.
  intros boom oom.
  assert (Hrun : classify_errors (fun s => s) ascii_lower "tests" "Tests" None
                   [] (fun _ => "https://artifacts/") [] []
                   [OfErrorLog (mkErrorLog "internal error: boom"
                                           "services.log");
                    OfErrorLog (mkErrorLog "out of memory" "services.log");
                    OfErrorLog (mkErrorLog "internal error: boom"
                                           "services.log")]
                 = Some (ClassifyState [boom; oom; boom] [] ∅))
    by (vm_compute; reflexivity).
  assert (Hf : key_faithful []) by (intros a b []).
  assert (Hforeign : Forall foreign []) by constructor.
  exact (proj1 (grouping_collapses_equal_records (fun s => s) ascii_lower
                  "tests" "Tests" None [] (fun _ => "https://artifacts/") []
                  [] _ _ [boom; oom; boom] Hf Hforeign Hrun
                  (or_introl eq_refl))).
Defined.
